(** * pgutft.c: transcoding UTF-T byte strings to UTF-8

    A shallow embedding of [utft_to_utf8] (src/pgutft.c, lines 73-148) and
    the properties of its scanning loop, its unit decoder and its UTF-8
    encoder.

    Conventions of the embedding:
    - C integers are [Z]; the conversions the C code performs are written
      out ([uchar] for a store into an [unsigned char], [ulong w] for
      arithmetic on an [unsigned long] of [w] bits);
    - memory is a list of bytes read by index from [in->vl_dat[0]] on: the
      data bytes of the [bytea] argument followed by the bytes that lie after
      it, which the loop reads as well; a read outside that list is undefined
      in C and makes the embedding answer [None] / [Undefined];
    - the [while] loop runs on fuel; [OutOfFuel] is kept apart from
      [Undefined] so that termination is a theorem and not an assumption. *)

From Stdlib Require Import ZArith List Lia.
From stdpp Require Import base tactics option list numbers list_numbers.

Local Open Scope Z_scope.

Module PgUtft.

(** ** C integer conversions *)

(** Conversion to [unsigned char] (8 bits). *)
Definition uchar (x : Z) : Z := x mod 256.

(** Conversion to, and arithmetic in, [unsigned long] of [w] bits
    ([w = 64] on LP64 targets such as GNU/Linux x86-64, [w = 32] on ILP32). *)
Definition ulong (w : Z) (x : Z) : Z := x mod 2 ^ w.

(** [#define UTFT_BUFSIZE 512] (line 37). *)
Definition UTFT_BUFSIZE : Z := 512.

(** ** The input *)

(** Bytes of memory, read by index. The elements are C [char]s; every read
    converts to [unsigned char]. *)
Abbreviation bytea := (list Z).

(** Number of bytes of a piece of memory. *)
Definition extent (mem : bytea) : Z := Z.of_nat (length mem).

(** [VARHDRSZ], [VARSIZE] and [SET_VARSIZE] are macros of PostgreSQL's
    postgres.h, which the file includes (line 29) and which is not among the
    sources. They are taken as PostgreSQL defines them for the varlena that
    [PG_GETARG_BYTEA_P] returns: a length word of [VARHDRSZ = 4] bytes
    followed by the data bytes [vl_dat], [VARSIZE] being the total size,
    length word included. Line 141 reads the same way: it allocates
    [VARHDRSZ + index8] bytes for [index8] bytes of data. *)
Definition VARHDRSZ : Z := 4.

(** [VARSIZE(in)] for an argument whose data bytes are [datum]. *)
Definition VARSIZE (datum : bytea) : Z := VARHDRSZ + extent datum.

(** [in->vl_dat[i]], where [inp] is the memory from [in->vl_dat[0]] on:
    defined inside that memory only. *)
Definition vl_dat (inp : bytea) (i : Z) : option Z :=
  if i <? 0 then None else inp !! Z.to_nat i.

(** [(unsigned char)(in->vl_dat[i])] (lines 84, 90-92). *)
Definition byte_at (inp : bytea) (i : Z) : option Z :=
  uchar <$> vl_dat inp i.

(** ** Code point of a sentinel unit (line 96)

    [((b3 & 127) | ((b2 & 127)<<7) | ((b1 & 127)<<14)) - 0x0F0000UL].
    The left operand is an [int] below [2^21], so it does not overflow; it is
    converted to [unsigned long] and the subtraction wraps modulo [2^w]. *)
Definition payload (b1 b2 b3 : Z) : Z :=
  Z.lor (Z.lor (Z.land b3 127) (Z.shiftl (Z.land b2 127) 7))
        (Z.shiftl (Z.land b1 127) 14).

Definition code_point (w b1 b2 b3 : Z) : Z :=
  ulong w (payload b1 b2 b3 - 0x0F0000).

(** ** UTF-8 encoding branches (lines 98-119 and 127-128)

    Each element is one [buffer[index8++] = ...] store, hence the [uchar]. *)

(** Lines 99-100. *)
Definition utf8_1 (c : Z) : list Z :=
  [uchar c].

(** Lines 103-105, and again lines 126-128. *)
Definition utf8_2 (c : Z) : list Z :=
  [uchar (Z.lor 0xC0 (Z.shiftr (Z.land c 0x7C0) 6));
   uchar (Z.lor (Z.shiftl 0x02 6) (Z.land c 0x3F))].

(** Lines 108-111. *)
Definition utf8_3 (c : Z) : list Z :=
  [uchar (Z.lor 0xE0 (Z.shiftr (Z.land c 0xF000) 12));
   uchar (Z.lor (Z.shiftl 0x02 6) (Z.shiftr (Z.land c 0xFC0) 6));
   uchar (Z.lor (Z.shiftl 0x02 6) (Z.land c 0x3F))].

(** Lines 114-118. *)
Definition utf8_4 (c : Z) : list Z :=
  [uchar (Z.lor 0xF0 (Z.shiftr (Z.land c 0xF000) 18));
   uchar (Z.lor (Z.shiftl 0x02 6) (Z.shiftr (Z.land c 0x3F00) 12));
   uchar (Z.lor (Z.shiftl 0x02 6) (Z.shiftr (Z.land c 0xFC0) 6));
   uchar (Z.lor (Z.shiftl 0x02 6) (Z.land c 0x3F))].

(** The cascade of lines 98-119. *)
Definition utf8_encode (c : Z) : list Z :=
  if c <? 0x7F then utf8_1 c
  else if c <? 0x07FF then utf8_2 c
  else if c <? 0xFFFF then utf8_3 c
  else utf8_4 c.

(** ** One unit: the body of the loop up to the capacity check (lines 84-133) *)

(** What one unit does: the new value of [indexT], the code point [c] it
    decoded (the byte [b] itself in the single-byte branch) and the bytes it
    stored at [buffer[index8++]]. *)
Record unit_out : Type := UnitOut {
  next_indexT : Z;
  c : Z;
  written : list Z
}.

Definition transcode_unit (w : Z) (inp : bytea) (indexT : Z) : option unit_out :=
  b ← byte_at inp indexT;
  if b =? 0x9B then
    b1 ← byte_at inp (indexT + 1);
    b2 ← byte_at inp (indexT + 2);
    b3 ← byte_at inp (indexT + 3);
    let indexT := indexT + 4 in
    let c := code_point w b1 b2 b3 in
    Some (UnitOut indexT c (utf8_encode c))
  else if negb (Z.land b (Z.shiftl 1 7) =? 0) then
    let c := b in
    let indexT := indexT + 2 in
    Some (UnitOut indexT c (utf8_2 c))
  else
    Some (UnitOut (indexT + 1) b [b]).

(** ** The loop (lines 77-139) *)

(** The variables the loop changes. [buffer] holds the bytes stored so far,
    [buffer[0 .. index8)], so that [index8] is its length and a store
    [buffer[index8++] = x] appends [x] ([body_capacity] below shows that the
    store is inside the allocation); [bufsize] is the allocated capacity.
    The three are C [int]s and stay far below [INT_MAX] for any [bytea]
    PostgreSQL can hold, so they are plain [Z] here. *)
Record state : Type := State {
  indexT : Z;
  bufsize : Z;
  buffer : list Z
}.

Definition index8 (s : state) : Z := Z.of_nat (length (buffer s)).

(** Lines 77-81. *)
Definition init : state := State 0 UTFT_BUFSIZE [].

(** Lines 84-138: one unit, then [if (index8 > (bufsize-4)) bufsize += UTFT_BUFSIZE]. *)
Definition body (w : Z) (inp : bytea) (s : state) : option state :=
  u ← transcode_unit w inp (indexT s);
  let buffer' := buffer s ++ written u in
  let index8' := Z.of_nat (length buffer') in
  let bufsize' :=
    if index8' >? bufsize s - 4 then bufsize s + UTFT_BUFSIZE else bufsize s in
  Some (State (next_indexT u) bufsize' buffer').

Inductive outcome (A : Type) : Type :=
  | Done (a : A)
  | Undefined      (* a read outside the memory, or a result that is no text *)
  | OutOfFuel.
Arguments Done {A} a.
Arguments Undefined {A}.
Arguments OutOfFuel {A}.

Definition outcome_map {A B : Type} (f : A → B) (r : outcome A) : outcome B :=
  match r with
  | Done a => Done (f a)
  | Undefined => Undefined
  | OutOfFuel => OutOfFuel
  end.

(** [while (indexT < maxT) { ... }] (line 83), for a bound [maxT] and the
    memory [inp] from [in->vl_dat[0]] on. *)
Fixpoint while (fuel : nat) (w maxT : Z) (inp : bytea) (s : state) : outcome state :=
  if indexT s <? maxT then
    match fuel with
    | O => OutOfFuel
    | S fuel =>
        match body w inp s with
        | None => Undefined
        | Some s' => while fuel w maxT inp s'
        end
    end
  else Done s.

(** Lines 75-139 for an argument whose data bytes are [datum] and which is
    followed in memory by the bytes [after]: the loop runs up to
    [maxT = VARSIZE(in)] (line 80). One unit of fuel per unit of [maxT] is
    enough ([scan_fuel] below). *)
Definition scan (w : Z) (datum after : bytea) : outcome state :=
  while (Z.to_nat (VARSIZE datum)) w (VARSIZE datum) (datum ++ after) init.

(** Lines 141-143: [out] is allocated, all of [buffer[0 .. index8)] is copied
    into it and [SET_VARSIZE(out, index8)] declares a total size of [index8],
    so that the text consists of the first [index8 - VARHDRSZ] bytes. A
    declared size below [VARHDRSZ] is no text at all. *)
Definition to_text (buffer : list Z) : outcome (list Z) :=
  let index8 := Z.of_nat (length buffer) in
  if index8 <? VARHDRSZ then Undefined
  else Done (take (Z.to_nat (index8 - VARHDRSZ)) buffer).

(** The whole function, as the text it returns. *)
Definition utft_to_utf8 (w : Z) (datum after : bytea) : outcome (list Z) :=
  match scan w datum after with
  | Done s => to_text (buffer s)
  | Undefined => Undefined
  | OutOfFuel => OutOfFuel
  end.

(** ** Reference definitions taken from the spec's wording *)

(** The 4-byte UTF-8 pattern as the spec's table words it:
    [11110xxx 10xxxxxx 10xxxxxx 10xxxxxx] from bits 20..18 / 17..12 /
    11..6 / 5..0. *)
Definition utf8_4_spec (c : Z) : list Z :=
  [Z.lor 0xF0 (Z.land (Z.shiftr c 18) 0x07);
   Z.lor 0x80 (Z.land (Z.shiftr c 12) 0x3F);
   Z.lor 0x80 (Z.land (Z.shiftr c 6) 0x3F);
   Z.lor 0x80 (Z.land c 0x3F)].

(** The 2-byte UTF-8 pattern: [110xxxxx 10xxxxxx] from bits 10..6 / 5..0. *)
Definition utf8_2_spec (c : Z) : list Z :=
  [Z.lor 0xC0 (Z.land (Z.shiftr c 6) 0x1F);
   Z.lor 0x80 (Z.land c 0x3F)].

(** Modelled from the spec: the UTF-T encoder is not part of the sources
    ("not implemented here but definable from the scheme"). Glossary: "ASCII
    as single bytes, all other code points as a 4-byte unit led by sentinel
    0x9B carrying 21 bits of payload in 3 following bytes' low-7-bits each,
    offset by 0x0F0000". The high bit of the three data bytes is set, as in
    the worked examples 9B BC 81 E7, 9B BC C1 AC and 9B C3 A2 9E. *)
Definition utft_encode (cp : Z) : list Z :=
  if cp <? 0x80 then [cp]
  else
    let v := cp + 0x0F0000 in
    [0x9B;
     Z.lor 0x80 (Z.land (Z.shiftr v 14) 0x7F);
     Z.lor 0x80 (Z.land (Z.shiftr v 7) 0x7F);
     Z.lor 0x80 (Z.land v 0x7F)].

(** ** Observers of the scan *)

(** [reaches w maxT inp s s']: the loop bounded by [maxT], started in [s], is
    at its head in state [s'] after some number of iterations. The cursor
    positions of a call are the [indexT] of the states reached from [init]. *)
Inductive reaches (w maxT : Z) (inp : bytea) : state → state → Prop :=
  | reaches_here s : reaches w maxT inp s s
  | reaches_iter s s' s'' :
      indexT s < maxT →
      body w inp s = Some s' →
      reaches w maxT inp s' s'' →
      reaches w maxT inp s s''.

(** The value of [indexT] when the loop is left. *)
Definition final_indexT (w : Z) (datum after : bytea) : outcome Z :=
  outcome_map indexT (scan w datum after).

(** A unit of the second part of a concatenation, with its cursor counted
    from the start of the concatenation. *)
Definition shift_unit (k : Z) (u : unit_out) : unit_out :=
  UnitOut (k + next_indexT u) (c u) (written u).

(** ** UTF-8 as the header comment describes it (lines 60-64) *)

(** The code point carried by one UTF-8 sequence: the bits after the prefix
    ['0'], ['110'], ['1110'] or ['11110'] of the first byte, followed by the
    six bits after the prefix ['10'] of every other byte. *)
Definition utf8_value (bs : list Z) : Z :=
  match bs with
  | [a] => a
  | [l; t1] =>
      Z.lor (Z.shiftl (Z.land l 0x1F) 6) (Z.land t1 0x3F)
  | [l; t1; t2] =>
      Z.lor (Z.lor (Z.shiftl (Z.land l 0x0F) 12) (Z.shiftl (Z.land t1 0x3F) 6))
            (Z.land t2 0x3F)
  | [l; t1; t2; t3] =>
      Z.lor (Z.lor (Z.lor (Z.shiftl (Z.land l 0x07) 18)
                          (Z.shiftl (Z.land t1 0x3F) 12))
                   (Z.shiftl (Z.land t2 0x3F) 6))
            (Z.land t3 0x3F)
  | _ => 0
  end.

(** The number of bytes the header comment gives to a code point: one up to
    U+007F, two up to U+07FF, three up to U+FFFF, four beyond. *)
Definition utf8_length (c : Z) : nat :=
  if c <=? 0x7F then 1%nat
  else if c <=? 0x7FF then 2%nat
  else if c <=? 0xFFFF then 3%nat
  else 4%nat.

(** A byte [10xxxxxx]. *)
Definition continuation (b : Z) : bool := (0x80 <=? b) && (b <=? 0xBF).

(** One sequence [0xxxxxxx], [110xxxxx 10xxxxxx], [1110xxxx 10xxxxxx 10xxxxxx]
    or [11110xxx 10xxxxxx 10xxxxxx 10xxxxxx]. *)
Definition utf8_sequence (bs : list Z) : bool :=
  match bs with
  | [a] => (0 <=? a) && (a <? 0x80)
  | [l; t1] => (0xC0 <=? l) && (l <=? 0xDF) && continuation t1
  | [l; t1; t2] =>
      (0xE0 <=? l) && (l <=? 0xEF) && continuation t1 && continuation t2
  | [l; t1; t2; t3] =>
      (0xF0 <=? l) && (l <=? 0xF7) && continuation t1 && continuation t2
      && continuation t3
  | _ => false
  end.

(** A byte string made of such sequences, one after the other. *)
Inductive utf8_shaped : list Z → Prop :=
  | shaped_nil : utf8_shaped []
  | shaped_app bs rest :
      utf8_sequence bs = true → utf8_shaped rest → utf8_shaped (bs ++ rest).

(** ** Well-formed UTF-T text (header comment, lines 41-58) *)

(** A unit of well-formed UTF-T: a single byte with the high bit clear, or
    the byte 0x9B followed by three data bytes. *)
Inductive utft_unit : Type :=
  | Single (b : Z)
  | Escape (b1 b2 b3 : Z).

Definition unit_wf (x : utft_unit) : bool :=
  match x with
  | Single b => (0 <=? b) && (b <? 0x80)
  | Escape b1 b2 b3 =>
      (0 <=? b1) && (b1 <? 256) && (0 <=? b2) && (b2 <? 256)
      && (0 <=? b3) && (b3 <? 256)
  end.

(** The bytes of a unit in the input. *)
Definition unit_bytes (x : utft_unit) : list Z :=
  match x with
  | Single b => [b]
  | Escape b1 b2 b3 => [0x9B; b1; b2; b3]
  end.

(** The bytes [utft_to_utf8] stores for it: line 131 for a single byte,
    lines 96-119 for an escape. *)
Definition unit_utf8 (w : Z) (x : utft_unit) : list Z :=
  match x with
  | Single b => [b]
  | Escape b1 b2 b3 => utf8_encode (code_point w b1 b2 b3)
  end.

(** ** Bit arithmetic *)

(** A property checked on every value of a range by evaluation. *)
Lemma range_check (P : Z → bool) (lo n : Z) :
  forallb P (seqZ lo n) = true → ∀ b, lo <= b < lo + n → P b = true.
Proof.
  intros H b Hb. rewrite forallb_forall in H. apply H.
  apply list_elem_of_In, elem_of_seqZ. lia.
Qed.

Lemma lor_shiftl_add lo hi k :
  0 <= k → 0 <= lo < 2 ^ k → Z.lor lo (Z.shiftl hi k) = lo + hi * 2 ^ k.
Proof.
  intros Hk Hlo. rewrite Z.shiftl_mul_pow2 by lia.
  symmetry. apply Z.add_nocarry_lor.
  apply Z.bits_inj'. intros n Hn. rewrite Z.land_spec, Z.bits_0.
  destruct (Z.lt_ge_cases n k) as [Hlt|Hge].
  - rewrite Z.mul_pow2_bits_low by lia. apply andb_false_r.
  - rewrite <- (Z.mod_small lo (2 ^ k)) by lia.
    rewrite Z.mod_pow2_bits_high by lia. done.
Qed.

Lemma land_127 x : Z.land x 127 = x mod 128.
Proof. change 127 with (Z.ones 7). by rewrite Z.land_ones. Qed.

(** The payload as a number in base 128. *)
Lemma payload_arith b1 b2 b3 :
  payload b1 b2 b3 = (b1 mod 128) * 16384 + (b2 mod 128) * 128 + b3 mod 128.
Proof.
  unfold payload. rewrite !land_127.
  pose proof (Z.mod_pos_bound b1 128 eq_refl).
  pose proof (Z.mod_pos_bound b2 128 eq_refl).
  pose proof (Z.mod_pos_bound b3 128 eq_refl).
  rewrite (lor_shiftl_add (b3 mod 128) (b2 mod 128) 7) by lia.
  rewrite (lor_shiftl_add _ (b1 mod 128) 14) by lia.
  lia.
Qed.

Lemma payload_bounds b1 b2 b3 : 0 <= payload b1 b2 b3 < 2 ^ 21.
Proof.
  rewrite payload_arith.
  pose proof (Z.mod_pos_bound b1 128 eq_refl).
  pose proof (Z.mod_pos_bound b2 128 eq_refl).
  pose proof (Z.mod_pos_bound b3 128 eq_refl).
  lia.
Qed.

(** The same value with the operands in the order of the spec,
    [(b1&0x7F)<<14 | (b2&0x7F)<<7 | (b3&0x7F)]. *)
Lemma payload_msb_first b1 b2 b3 :
  Z.lor (Z.lor (Z.shiftl (Z.land b1 0x7F) 14) (Z.shiftl (Z.land b2 0x7F) 7))
        (Z.land b3 0x7F) = payload b1 b2 b3.
Proof.
  unfold payload. apply Z.bits_inj'. intros n _. rewrite !Z.lor_spec.
  destruct (Z.testbit (Z.land b3 127) n),
           (Z.testbit (Z.shiftl (Z.land b2 127) 7) n),
           (Z.testbit (Z.shiftl (Z.land b1 127) 14) n); done.
Qed.

Lemma pow2_ge_32 w : 32 <= w → 2 ^ 32 <= 2 ^ w.
Proof. intros Hw. apply Z.pow_le_mono_r; lia. Qed.

(** No wrap-around when the payload is at least the offset. *)
Lemma code_point_exact w b1 b2 b3 :
  32 <= w → 0x0F0000 <= payload b1 b2 b3 →
  code_point w b1 b2 b3 = payload b1 b2 b3 - 0x0F0000.
Proof.
  intros Hw Hp. unfold code_point, ulong.
  pose proof (payload_bounds b1 b2 b3). pose proof (pow2_ge_32 w Hw).
  apply Z.mod_small. lia.
Qed.

(** Wrap-around when it is below. *)
Lemma code_point_wraps w b1 b2 b3 :
  32 <= w → payload b1 b2 b3 < 0x0F0000 →
  code_point w b1 b2 b3 = 2 ^ w + payload b1 b2 b3 - 0x0F0000.
Proof.
  intros Hw Hp. unfold code_point, ulong.
  pose proof (payload_bounds b1 b2 b3). pose proof (pow2_ge_32 w Hw).
  symmetry. apply (Z.mod_unique_pos _ _ (-1)); lia.
Qed.

Lemma land_ones_bound x k : 0 <= k → 0 <= Z.land x (Z.ones k) < 2 ^ k.
Proof.
  intros Hk. rewrite Z.land_ones by lia. apply Z.mod_pos_bound. lia.
Qed.

Lemma lor_byte a b : 0 <= a < 256 → 0 <= b < 256 → 0 <= Z.lor a b < 256.
Proof.
  intros Ha Hb. split; [apply Z.lor_nonneg; lia|].
  assert (Hlog : ∀ x, 0 <= x < 256 → Z.log2 x < 8).
  { intros x Hx. destruct (Z.eq_dec x 0) as [->|]; [done|].
    apply (Z.log2_lt_pow2 x 8); lia. }
  destruct (Z.eq_dec (Z.lor a b) 0) as [->|Hnz]; [done|].
  assert (0 <= Z.lor a b) by (apply Z.lor_nonneg; lia).
  apply (Z.log2_lt_pow2 _ 8); [lia|].
  rewrite Z.log2_lor by lia. apply Z.max_lub_lt; apply Hlog; lia.
Qed.

(** A store of [lead | (x & mask)] with an 8-bit [lead] and a mask of [k <= 8]
    low bits is not truncated. *)
Lemma uchar_lor_land lead x k :
  0 <= lead < 256 → 0 <= k <= 8 →
  uchar (Z.lor lead (Z.land x (Z.ones k))) = Z.lor lead (Z.land x (Z.ones k)).
Proof.
  intros Hl Hk. unfold uchar. apply Z.mod_small, lor_byte; [done|].
  pose proof (land_ones_bound x k ltac:(lia)).
  assert (2 ^ k <= 2 ^ 8) by (apply Z.pow_le_mono_r; lia). lia.
Qed.

(** What the branches store, with the shift moved inside the mask. *)
Lemma utf8_2_bytes c :
  utf8_2 c = [Z.lor 0xC0 (Z.land (Z.shiftr c 6) 0x1F);
              Z.lor 0x80 (Z.land c 0x3F)].
Proof.
  unfold utf8_2. rewrite !Z.shiftr_land.
  change (1984 ≫ 6) with (Z.ones 5). change (2 ≪ 6) with 128.
  change 63 with (Z.ones 6). by rewrite !uchar_lor_land by lia.
Qed.

Lemma utf8_3_bytes c :
  utf8_3 c = [Z.lor 0xE0 (Z.land (Z.shiftr c 12) 0x0F);
              Z.lor 0x80 (Z.land (Z.shiftr c 6) 0x3F);
              Z.lor 0x80 (Z.land c 0x3F)].
Proof.
  unfold utf8_3. rewrite !Z.shiftr_land.
  change (61440 ≫ 12) with (Z.ones 4). change (4032 ≫ 6) with (Z.ones 6).
  change (2 ≪ 6) with 128. change 63 with (Z.ones 6).
  by rewrite !uchar_lor_land by lia.
Qed.

(** In the 4-byte branch the mask [0xF000] shifted by 18 leaves nothing for
    the first byte, and the mask [0x3F00] shifted by 12 leaves bits 13..12
    for the second. *)
Lemma utf8_4_bytes c :
  utf8_4 c = [0xF0;
              Z.lor 0x80 (Z.land (Z.shiftr c 12) 0x03);
              Z.lor 0x80 (Z.land (Z.shiftr c 6) 0x3F);
              Z.lor 0x80 (Z.land c 0x3F)].
Proof.
  unfold utf8_4. rewrite !Z.shiftr_land.
  change (61440 ≫ 18) with (Z.ones 0). change (16128 ≫ 12) with (Z.ones 2).
  change (4032 ≫ 6) with (Z.ones 6). change (2 ≪ 6) with 128.
  change 63 with (Z.ones 6). rewrite !uchar_lor_land by lia.
  change (Z.ones 0) with 0. by rewrite Z.land_0_r.
Qed.

(** ** Reads *)

Lemma byte_at_Some inp i b :
  byte_at inp i = Some b →
  0 <= i < extent inp ∧ 0 <= b < 256 ∧ ∃ x, inp !! Z.to_nat i = Some x ∧ b = uchar x.
Proof.
  unfold byte_at, vl_dat, extent. intros H.
  destruct (Z.ltb_spec i 0) as [Hi|Hi]; [discriminate|].
  destruct (inp !! Z.to_nat i) as [x|] eqn:Hx; [|discriminate].
  injection H as <-. apply lookup_lt_Some in Hx.
  repeat split; try lia; try (unfold uchar; apply Z.mod_pos_bound; lia).
  by exists x.
Qed.

Lemma byte_at_lookup inp i :
  0 <= i → byte_at inp i = uchar <$> inp !! Z.to_nat i.
Proof.
  intros Hi. unfold byte_at, vl_dat.
  destruct (Z.ltb_spec i 0); [lia|done].
Qed.

(** ** One unit *)

(** The three shapes a unit can take, read off [transcode_unit]. *)
Lemma transcode_unit_cases w inp i u :
  transcode_unit w inp i = Some u →
  (∃ b1 b2 b3, byte_at inp i = Some 0x9B ∧ byte_at inp (i + 1) = Some b1 ∧
      byte_at inp (i + 2) = Some b2 ∧ byte_at inp (i + 3) = Some b3 ∧
      u = UnitOut (i + 4) (code_point w b1 b2 b3)
                  (utf8_encode (code_point w b1 b2 b3))) ∨
  (∃ b, byte_at inp i = Some b ∧ b ≠ 0x9B ∧ Z.land b (Z.shiftl 1 7) ≠ 0 ∧
      u = UnitOut (i + 2) b (utf8_2 b)) ∨
  (∃ b, byte_at inp i = Some b ∧ b ≠ 0x9B ∧ Z.land b (Z.shiftl 1 7) = 0 ∧
      u = UnitOut (i + 1) b [b]).
Proof.
  unfold transcode_unit. intros H.
  destruct (byte_at inp i) as [b|] eqn:Hb; [|discriminate]. cbn in H.
  destruct (Z.eqb_spec b 0x9B) as [->|Hne].
  - destruct (byte_at inp (i + 1)) as [b1|]; [|discriminate].
    destruct (byte_at inp (i + 2)) as [b2|]; [|discriminate].
    destruct (byte_at inp (i + 3)) as [b3|]; [|discriminate].
    cbn in H. injection H as <-. left. by exists b1, b2, b3.
  - destruct (Z.eqb_spec (Z.land b (Z.shiftl 1 7)) 0) as [Hz|Hnz];
      cbn in H; injection H as <-.
    + right; right. by exists b.
    + right; left. by exists b.
Qed.

(** Case analysis on a defined unit [H : transcode_unit w inp i = Some u]:
    sentinel, high-bit byte, single byte, in this order. *)
Ltac unit_cases H :=
  apply transcode_unit_cases in H;
  destruct H as [(b1 & b2 & b3 & H0 & H1 & H2 & H3 & ->)
                | [(b & H0 & Hne & Hhi & ->) | (b & H0 & Hne & Hlo & ->)]].

Lemma transcode_unit_advance w inp i u :
  transcode_unit w inp i = Some u →
  next_indexT u = i + 1 ∨ next_indexT u = i + 2 ∨ next_indexT u = i + 4.
Proof. intros H. unit_cases H; cbn; auto. Qed.

(** A unit whose reads are all defined ends at most one byte past the
    memory it reads. *)
Lemma transcode_unit_bound w inp i u :
  transcode_unit w inp i = Some u →
  0 <= i < extent inp ∧ next_indexT u <= extent inp + 1.
Proof.
  intros H. unit_cases H;
    cbn; apply byte_at_Some in H0; try apply byte_at_Some in H3; lia.
Qed.

(** ** The loop *)

Lemma body_inv w inp s s' :
  body w inp s = Some s' →
  ∃ u, transcode_unit w inp (indexT s) = Some u ∧
       indexT s' = next_indexT u ∧ buffer s' = buffer s ++ written u.
Proof.
  unfold body. intros H.
  destruct (transcode_unit w inp (indexT s)) as [u|]; [|discriminate].
  cbn in H. injection H as <-. by exists u.
Qed.

Lemma body_advance w inp s s' :
  body w inp s = Some s' →
  indexT s' = indexT s + 1 ∨ indexT s' = indexT s + 2 ∨ indexT s' = indexT s + 4.
Proof.
  intros (u & Hu & -> & _)%body_inv. by apply transcode_unit_advance in Hu.
Qed.

(** One unit of fuel per unit of distance to the bound is enough. *)
Lemma while_fuel f w maxT inp s :
  maxT - indexT s <= Z.of_nat f → while f w maxT inp s ≠ OutOfFuel.
Proof.
  revert s. induction f as [|f IH]; intros s Hf; cbn [while].
  - destruct (Z.ltb_spec (indexT s) maxT); [lia|done].
  - destruct (Z.ltb_spec (indexT s) maxT); [|done].
    destruct (body w inp s) as [s'|] eqn:Hb; [|done].
    apply IH. apply body_advance in Hb. lia.
Qed.

(** More fuel does not change a result. *)
Lemma while_fuel_mono f g w maxT inp s :
  while f w maxT inp s ≠ OutOfFuel →
  while (f + g) w maxT inp s = while f w maxT inp s.
Proof.
  revert s. induction f as [|f IH]; intros s; cbn [while].
  - destruct (Z.ltb_spec (indexT s) maxT); [done|].
    destruct g; cbn [Nat.add while];
      by destruct (Z.ltb_spec (indexT s) maxT); [lia|].
  - cbn [Nat.add while].
    destruct (Z.ltb_spec (indexT s) maxT); [|done].
    destruct (body w inp s) as [s'|]; [|done]. apply IH.
Qed.

(** Where the loop stops: at the bound or up to three bytes past it. *)
Lemma while_Done f w maxT inp s s' :
  while f w maxT inp s = Done s' →
  maxT <= indexT s' ∧
  (indexT s' = indexT s ∨ indexT s < indexT s' <= maxT + 3).
Proof.
  revert s. induction f as [|f IH]; intros s; cbn [while].
  - destruct (Z.ltb_spec (indexT s) maxT); [done|].
    intros [= <-]. lia.
  - destruct (Z.ltb_spec (indexT s) maxT).
    + destruct (body w inp s) as [s1|] eqn:Hb; [|done].
      intros Hw. apply IH in Hw. apply body_advance in Hb. lia.
    + intros [= <-]. lia.
Qed.

(** The state in which the loop is left is reached. *)
Lemma while_reaches f w maxT inp s s' :
  while f w maxT inp s = Done s' → reaches w maxT inp s s'.
Proof.
  revert s. induction f as [|f IH]; intros s; cbn [while].
  - destruct (Z.ltb_spec (indexT s) maxT); [done|].
    intros [= <-]. constructor.
  - destruct (Z.ltb_spec (indexT s) maxT).
    + destruct (body w inp s) as [s1|] eqn:Hb; [|done].
      intros Hw. eapply reaches_iter; [done..|by apply IH].
    + intros [= <-]. constructor.
Qed.

Lemma reaches_le w maxT inp s s' :
  reaches w maxT inp s s' → indexT s <= indexT s'.
Proof.
  induction 1 as [|s s' s'' Hlt Hb _ IH]; [lia|].
  apply body_advance in Hb. lia.
Qed.

(** The loop run from a state is the loop run from any state it reaches. *)
Lemma reaches_while w maxT inp s0 s :
  reaches w maxT inp s0 s →
  ∀ f, maxT - indexT s0 <= Z.of_nat f →
  ∃ f', maxT - indexT s <= Z.of_nat f' ∧
        while f w maxT inp s0 = while f' w maxT inp s.
Proof.
  induction 1 as [s|s0 s1 s Hlt Hb _ IH]; intros f Hf; [by exists f|].
  destruct f as [|f]; [lia|]. cbn [while].
  destruct (Z.ltb_spec (indexT s0) maxT); [|lia].
  rewrite Hb. apply IH. apply body_advance in Hb. lia.
Qed.

Lemma reaches_snoc w maxT inp s0 s s' :
  reaches w maxT inp s0 s → indexT s < maxT → body w inp s = Some s' →
  reaches w maxT inp s0 s'.
Proof.
  induction 1 as [s|s0 s1 s Hlt Hb _ IH]; intros Hs Hbody.
  - eapply reaches_iter; [done..|constructor].
  - eapply reaches_iter; [done..|by apply IH].
Qed.

Lemma scan_fuel w datum after : scan w datum after ≠ OutOfFuel.
Proof.
  unfold scan. apply while_fuel. cbn [indexT init].
  unfold VARSIZE, VARHDRSZ, extent. lia.
Qed.

(** The loop of a call is left at [VARSIZE(in)] or up to three bytes past it. *)
Lemma scan_Done w datum after s :
  scan w datum after = Done s →
  reaches w (VARSIZE datum) (datum ++ after) init s ∧
  VARSIZE datum <= indexT s <= VARSIZE datum + 3.
Proof.
  unfold scan. intros Hw. split; [by eapply while_reaches|].
  apply while_Done in Hw. cbn [indexT init] in Hw.
  unfold VARSIZE, VARHDRSZ, extent in *. lia.
Qed.

Lemma to_text_Done buf out :
  to_text buf = Done out →
  (4 <= length buf)%nat ∧ out = take (length buf - 4) buf.
Proof.
  unfold to_text, VARHDRSZ.
  destruct (Z.ltb_spec (Z.of_nat (length buf)) 4); [done|].
  intros [= <-]. split; [lia|]. f_equal. lia.
Qed.

Lemma utft_to_utf8_Done w datum after out :
  utft_to_utf8 w datum after = Done out →
  ∃ s, scan w datum after = Done s ∧ to_text (buffer s) = Done out.
Proof.
  unfold utft_to_utf8. destruct (scan w datum after) as [s| |]; [|done..].
  intros H. by exists s.
Qed.

(** The bytes already stored stay in front of the buffer. *)
Lemma reaches_buffer_prefix w maxT inp s s' :
  reaches w maxT inp s s' → ∃ tl, buffer s' = buffer s ++ tl.
Proof.
  induction 1 as [s|s s1 s' _ Hb _ [tl ->]]; [exists []; by rewrite app_nil_r|].
  apply body_inv in Hb as (u & _ & _ & ->).
  exists (written u ++ tl). by rewrite app_assoc.
Qed.

(** ** The three branches of a unit *)

Lemma sentinel_unit w inp i b1 b2 b3 :
  byte_at inp i = Some 0x9B → byte_at inp (i + 1) = Some b1 →
  byte_at inp (i + 2) = Some b2 → byte_at inp (i + 3) = Some b3 →
  transcode_unit w inp i =
    Some (UnitOut (i + 4) (code_point w b1 b2 b3)
                  (utf8_encode (code_point w b1 b2 b3))).
Proof.
  intros H0 H1 H2 H3. unfold transcode_unit.
  rewrite H0. cbn [mbind option_bind]. change (155 =? 155) with true. cbv iota.
  rewrite H1, H2, H3. done.
Qed.

Lemma high_bit_clear b : 0 <= b < 0x80 → Z.land b 0x80 = 0.
Proof.
  intros Hb. apply Z.eqb_eq.
  by apply (range_check (λ b, Z.land b 0x80 =? 0) 0 128); [vm_compute|].
Qed.

Lemma high_bit_set b : 0x80 <= b < 256 → Z.land b 0x80 ≠ 0.
Proof.
  intros Hb. apply Z.eqb_neq.
  apply negb_true_iff.
  by apply (range_check (λ b, negb (Z.land b 0x80 =? 0)) 128 128); [vm_compute|].
Qed.

Lemma high_bit_unit w inp i b :
  byte_at inp i = Some b → Z.land b 0x80 ≠ 0 → b ≠ 0x9B →
  transcode_unit w inp i = Some (UnitOut (i + 2) b (utf8_2 b)).
Proof.
  intros Hb Hhi Hne. unfold transcode_unit. rewrite Hb. cbn [mbind option_bind].
  destruct (Z.eqb_spec b 0x9B) as [|_]; [done|].
  change (1 ≪ 7) with 0x80.
  by destruct (Z.eqb_spec (Z.land b 0x80) 0) as [|_].
Qed.

Lemma ascii_unit w inp i b :
  byte_at inp i = Some b → b < 0x80 →
  transcode_unit w inp i = Some (UnitOut (i + 1) b [b]).
Proof.
  intros Hb Hlt. pose proof (byte_at_Some _ _ _ Hb) as (_ & Hr & _).
  unfold transcode_unit. rewrite Hb. cbn [mbind option_bind].
  destruct (Z.eqb_spec b 0x9B) as [|_]; [lia|].
  change (1 ≪ 7) with 0x80. by rewrite high_bit_clear by lia.
Qed.

Lemma byte_at_insert_ne inp i j y :
  0 <= j → i ≠ j → byte_at (<[Z.to_nat j := y]> inp) i = byte_at inp i.
Proof.
  intros Hj Hne. unfold byte_at, vl_dat.
  destruct (Z.ltb_spec i 0); [done|].
  rewrite list_lookup_insert_ne by lia. done.
Qed.

(** ** Claims about single units *)

(** C1 (the code departs from the claim). The 4-byte branch does not take its
    payload from bits 20..18 and 17..12 of [c]: for the unit 9B C3 A2 9E the
    decode step yields [c = 0x1D11E >= 0xFFFF], the branch stores
    F0 81 84 9E, and the pattern of the claim is F0 9D 84 9E. *)
Theorem four_byte_branch_U1D11E :
  transcode_unit 64 [0x9B; 0xC3; 0xA2; 0x9E] 0 =
    Some (UnitOut 4 0x1D11E [0xF0; 0x81; 0x84; 0x9E]) ∧
  0xFFFF <= 0x1D11E ∧
  utf8_encode 0x1D11E = utf8_4 0x1D11E ∧
  utf8_4 0x1D11E = [0xF0; 0x81; 0x84; 0x9E] ∧
  utf8_4_spec 0x1D11E = [0xF0; 0x9D; 0x84; 0x9E].
Proof. repeat split; by vm_compute. Qed.

(** The bytes of the first unit of a call stay in front of the buffer. *)
Lemma scan_first_unit w datum after u s :
  transcode_unit w (datum ++ after) 0 = Some u → scan w datum after = Done s →
  ∃ tl, buffer s = written u ++ tl.
Proof.
  unfold scan. intros Hu Hw.
  destruct (Z.to_nat (VARSIZE datum)) as [|k] eqn:Hk;
    [unfold VARSIZE, VARHDRSZ, extent in Hk; lia|].
  cbn [while] in Hw.
  destruct (Z.ltb_spec (indexT init) (VARSIZE datum));
    [|unfold VARSIZE, VARHDRSZ, extent in *; cbn in *; lia].
  unfold body in Hw. cbn [indexT init] in Hw. rewrite Hu in Hw.
  cbn [mbind option_bind] in Hw.
  apply while_reaches, reaches_buffer_prefix in Hw as [tl Htl].
  by exists tl.
Qed.

(** C2 (the code departs from the claim). Decoding 9B C3 A2 9E produces
    F0 81 84 9E when zero bytes follow the datum in memory, whether
    [unsigned long] has 64 or 32 bits, and whatever follows the datum the
    call never returns F0 9D 84 9E: the first four bytes stored are
    F0 81 84 9E. *)
Theorem decode_U1D11E :
  utft_to_utf8 64 [0x9B; 0xC3; 0xA2; 0x9E] [0; 0; 0; 0] =
    Done [0xF0; 0x81; 0x84; 0x9E] ∧
  utft_to_utf8 32 [0x9B; 0xC3; 0xA2; 0x9E] [0; 0; 0; 0] =
    Done [0xF0; 0x81; 0x84; 0x9E] ∧
  [0xF0; 0x81; 0x84; 0x9E] ≠ [0xF0; 0x9D; 0x84; 0x9E] ∧
  (∀ w after out, 32 <= w →
     utft_to_utf8 w [0x9B; 0xC3; 0xA2; 0x9E] after = Done out →
     out ≠ [0xF0; 0x9D; 0x84; 0x9E]).
Proof.
  split; [by vm_compute|]. split; [by vm_compute|]. split; [done|].
  intros w after out Hw Hcall.
  apply utft_to_utf8_Done in Hcall as (s & Hscan & Htext).
  apply to_text_Done in Htext as (Hlen & ->).
  assert (Hcp : code_point w 0xC3 0xA2 0x9E = 0x1D11E).
  { rewrite code_point_exact; [done|done|by vm_compute]. }
  destruct (scan_first_unit w [0x9B; 0xC3; 0xA2; 0x9E] after
              (UnitOut (0 + 4) 0x1D11E [0xF0; 0x81; 0x84; 0x9E]) s) as [tl Htl];
    [|done|].
  { rewrite (sentinel_unit w _ 0 0xC3 0xA2 0x9E) by reflexivity.
    by rewrite Hcp. }
  cbn [written] in Htl. rewrite Htl. cbn [length app].
  by destruct (length tl) as [|[|n]].
Qed.

(** C3. Where the byte at the cursor is 0x9B and the next three bytes are
    [b1], [b2], [b3], the unit's code point is
    [((b1&0x7F)<<14 | (b2&0x7F)<<7 | (b3&0x7F)) - 0x0F0000] computed in
    [unsigned long] (modulo [2^w]; the exact difference when the payload is
    at least 0x0F0000), and the cursor advances by 4. *)
Theorem sentinel_unit_decode w inp i b1 b2 b3 :
  byte_at inp i = Some 0x9B → byte_at inp (i + 1) = Some b1 →
  byte_at inp (i + 2) = Some b2 → byte_at inp (i + 3) = Some b3 →
  let p := Z.lor (Z.lor (Z.shiftl (Z.land b1 0x7F) 14)
                        (Z.shiftl (Z.land b2 0x7F) 7))
                 (Z.land b3 0x7F) in
  ∃ u, transcode_unit w inp i = Some u ∧
       next_indexT u = i + 4 ∧
       c u = (p - 0x0F0000) mod 2 ^ w ∧
       (32 <= w → 0x0F0000 <= p → c u = p - 0x0F0000).
Proof.
  intros H0 H1 H2 H3 p. eexists. split; [by apply sentinel_unit|].
  cbn [next_indexT c]. subst p. rewrite payload_msb_first.
  repeat split. intros Hw Hp. by apply code_point_exact.
Qed.

Lemma sentinel_unit_decode_witness :
  ∃ u, transcode_unit 64 [0x9B; 0xBC; 0x81; 0xE7] 0 = Some u ∧
       next_indexT u = 0 + 4 ∧
       c u = (0x0F00E7 - 0x0F0000) mod 2 ^ 64 ∧
       (32 <= 64 → 0x0F0000 <= 0x0F00E7 → c u = 0x0F00E7 - 0x0F0000).
Proof.
  apply (sentinel_unit_decode 64 [0x9B; 0xBC; 0x81; 0xE7] 0 0xBC 0x81 0xE7);
    reflexivity.
Defined.

(** C4 (the code departs from the claim). The unit of a byte [b < 0x80] is
    [b] itself and advances the cursor by 1, but the call on the one-byte
    input 41 does not stop there: the loop runs up to [VARSIZE(in) = 5], so it
    also transcodes the four bytes that follow the datum in memory, and the
    text returned is cut by four bytes. With 9B BC C1 AC after the datum the
    call returns the empty text; only when the bytes after the datum store
    four bytes (four zero bytes, say) does it return 41. *)
Theorem ascii_byte_call :
  utft_to_utf8 64 [0x41] [0x9B; 0xBC; 0xC1; 0xAC] = Done [] ∧
  final_indexT 64 [0x41] [0x9B; 0xBC; 0xC1; 0xAC] = Done 5 ∧
  utft_to_utf8 64 [0x41] [0; 0; 0; 0] = Done [0x41] ∧
  final_indexT 64 [0x41] [0; 0; 0; 0] = Done 5 ∧
  (∀ w b inp i, 0 <= b < 0x80 → byte_at inp i = Some b →
     transcode_unit w inp i = Some (UnitOut (i + 1) b [b])).
Proof.
  repeat (split; [by vm_compute|]).
  intros w b inp i Hb Hat. apply ascii_unit; [done|lia].
Qed.

(** C5. Where the byte [b] at the cursor has its high bit set and is not
    0x9B, the unit's code point is [b], the two bytes stored are the 2-byte
    UTF-8 encoding of [b], the cursor advances by 2, and the unit is the same
    whatever the byte after [b] is. *)
Theorem high_bit_unit_decode w inp i b :
  byte_at inp i = Some b → Z.land b 0x80 ≠ 0 → b ≠ 0x9B →
  transcode_unit w inp i = Some (UnitOut (i + 2) b (utf8_2_spec b)) ∧
  ∀ y, transcode_unit w (<[Z.to_nat (i + 1) := y]> inp) i =
       transcode_unit w inp i.
Proof.
  intros Hb Hhi Hne. pose proof (byte_at_Some _ _ _ Hb) as (Hi & _).
  assert (Hu : ∀ inp', byte_at inp' i = Some b →
    transcode_unit w inp' i = Some (UnitOut (i + 2) b (utf8_2_spec b))).
  { intros inp' Hb'. rewrite (high_bit_unit w inp' i b) by done.
    by rewrite utf8_2_bytes. }
  split; [by apply Hu|]. intros y.
  rewrite (Hu inp) by done. apply Hu.
  rewrite byte_at_insert_ne by lia. done.
Qed.

Lemma high_bit_unit_decode_witness :
  transcode_unit 64 [0xE9; 0x41; 0x42] 0 =
    Some (UnitOut (0 + 2) 0xE9 (utf8_2_spec 0xE9)) ∧
  ∀ y, transcode_unit 64 (<[Z.to_nat (0 + 1) := y]> [0xE9; 0x41; 0x42]) 0 =
       transcode_unit 64 [0xE9; 0x41; 0x42] 0.
Proof.
  apply (high_bit_unit_decode 64 [0xE9; 0x41; 0x42] 0 0xE9);
    [reflexivity | by vm_compute | lia].
Defined.

(** C10. A sentinel unit whose payload is below 0x0F0000 is not rejected: the
    subtraction wraps modulo [2^w], the code point is
    [2^w + payload - 0x0F0000], far above 0x10FFFF, and the unit is stored
    through the 4-byte branch. *)
Theorem sentinel_underflow w inp i b1 b2 b3 :
  32 <= w →
  byte_at inp i = Some 0x9B → byte_at inp (i + 1) = Some b1 →
  byte_at inp (i + 2) = Some b2 → byte_at inp (i + 3) = Some b3 →
  let p := Z.lor (Z.lor (Z.shiftl (Z.land b1 0x7F) 14)
                        (Z.shiftl (Z.land b2 0x7F) 7))
                 (Z.land b3 0x7F) in
  p < 0x0F0000 →
  ∃ u, transcode_unit w inp i = Some u ∧
       c u = 2 ^ w + p - 0x0F0000 ∧
       2 ^ w - 0x0F0000 <= c u < 2 ^ w ∧
       0x10FFFF < c u ∧
       written u = utf8_4 (c u) ∧
       length (written u) = 4%nat.
Proof.
  intros Hw H0 H1 H2 H3 p Hp. subst p. rewrite payload_msb_first in *.
  eexists. split; [by apply sentinel_unit|]. cbn [c written].
  pose proof (payload_bounds b1 b2 b3) as Hpb.
  pose proof (pow2_ge_32 w Hw) as H32.
  rewrite (code_point_wraps w b1 b2 b3) by done.
  assert (He : utf8_encode (2 ^ w + payload b1 b2 b3 - 983040) =
               utf8_4 (2 ^ w + payload b1 b2 b3 - 983040)).
  { unfold utf8_encode.
    repeat (match goal with |- context [?x <? ?y] =>
              destruct (Z.ltb_spec x y); [lia|] end).
    done. }
  rewrite He. repeat split; lia.
Qed.

Lemma sentinel_underflow_witness :
  ∃ u, transcode_unit 64 [0x9B; 0x80; 0x80; 0xC1] 0 = Some u ∧
       c u = 2 ^ 64 + 0x41 - 0x0F0000 ∧
       2 ^ 64 - 0x0F0000 <= c u < 2 ^ 64 ∧
       0x10FFFF < c u ∧
       written u = utf8_4 (c u) ∧
       length (written u) = 4%nat.
Proof.
  apply (sentinel_underflow 64 [0x9B; 0x80; 0x80; 0xC1] 0 0x80 0x80 0xC1);
    [lia | reflexivity | reflexivity | reflexivity | reflexivity | reflexivity].
Defined.

(** ** Round trip through the UTF-T scheme *)

(** The low 7 bits of a data byte of [utft_encode], as the decoder reads it. *)
Lemma data_byte_low7 x : uchar (Z.lor 0x80 (Z.land x 0x7F)) mod 128 = x mod 128.
Proof.
  change 0x7F with (Z.ones 7). rewrite uchar_lor_land by lia.
  rewrite Z.lor_comm.
  change (Z.lor (Z.land x (Z.ones 7)) 128)
    with (Z.lor (Z.land x (Z.ones 7)) (Z.shiftl 1 7)).
  rewrite lor_shiftl_add by (try apply land_ones_bound; lia).
  rewrite Z.land_ones by lia. change (2 ^ 7) with 128.
  Z.div_mod_to_equations. lia.
Qed.

(** Three data bytes that carry the 21 bits of [v] give [v] back. *)
Lemma payload_of_data_bytes v :
  0 <= v < 2 ^ 21 →
  payload (uchar (Z.lor 0x80 (Z.land (Z.shiftr v 14) 0x7F)))
          (uchar (Z.lor 0x80 (Z.land (Z.shiftr v 7) 0x7F)))
          (uchar (Z.lor 0x80 (Z.land v 0x7F))) = v.
Proof.
  intros Hv. rewrite payload_arith, !data_byte_low7.
  rewrite !Z.shiftr_div_pow2 by lia.
  change (2 ^ 14) with 16384. change (2 ^ 7) with 128.
  change (2 ^ 21) with 2097152 in Hv.
  Z.div_mod_to_equations. lia.
Qed.

(** The round trip for every value of the range, surrogates included. *)
Lemma utft_encode_decode w cp :
  32 <= w → 0 <= cp <= 0x10FFFF →
  ∃ u, transcode_unit w (utft_encode cp) 0 = Some u ∧ c u = cp ∧
       next_indexT u = extent (utft_encode cp).
Proof.
  intros Hw Hcp. unfold utft_encode.
  destruct (Z.ltb_spec cp 0x80) as [Hlt|Hge].
  - assert (Hat : byte_at [cp] 0 = Some cp).
    { rewrite byte_at_lookup by lia. change ([cp] !! Z.to_nat 0) with (Some cp).
      cbn [fmap option_fmap option_map]. unfold uchar.
      by rewrite Z.mod_small by lia. }
    exists (UnitOut (0 + 1) cp [cp]). split; [by apply ascii_unit|done].
  - cbv zeta.
    set (e1 := Z.lor 0x80 (Z.land (Z.shiftr (cp + 0x0F0000) 14) 0x7F)).
    set (e2 := Z.lor 0x80 (Z.land (Z.shiftr (cp + 0x0F0000) 7) 0x7F)).
    set (e3 := Z.lor 0x80 (Z.land (cp + 0x0F0000) 0x7F)).
    eexists. split.
    + apply (sentinel_unit w [0x9B; e1; e2; e3] 0 (uchar e1) (uchar e2) (uchar e3));
        reflexivity.
    + cbn [c next_indexT]. split; [|done]. subst e1 e2 e3.
      unfold code_point, ulong.
      rewrite payload_of_data_bytes by (change (2 ^ 21) with 2097152; lia).
      pose proof (pow2_ge_32 w Hw).
      replace (cp + 983040 - 983040) with cp by lia. apply Z.mod_small. lia.
Qed.

(** C8. For every code point in [0, 0x10FFFF] that is not a surrogate, its
    UTF-T encoding (one byte for ASCII, otherwise 0x9B and three bytes that
    carry the 21 bits of [cp + 0x0F0000] in their low 7 bits) is one unit
    whose decode step gives the code point back. *)
Theorem utft_round_trip w cp :
  32 <= w → 0 <= cp <= 0x10FFFF → ¬ (0xD800 <= cp <= 0xDFFF) →
  ∃ u, transcode_unit w (utft_encode cp) 0 = Some u ∧ c u = cp ∧
       next_indexT u = extent (utft_encode cp).
Proof. intros Hw Hcp _. by apply utft_encode_decode. Qed.

Lemma utft_round_trip_witness :
  ∃ u, transcode_unit 64 (utft_encode 0x20AC) 0 = Some u ∧ c u = 0x20AC ∧
       next_indexT u = extent (utft_encode 0x20AC).
Proof. apply (utft_round_trip 64 0x20AC); lia. Defined.

(** ** Capacity of the output buffer *)

Lemma written_length w inp i u :
  transcode_unit w inp i = Some u → (length (written u) <= 4)%nat.
Proof.
  intros H. unit_cases H; cbn [written]; [|cbn; lia..].
  unfold utf8_encode.
  repeat (match goal with |- context [?x <? ?y] => destruct (x <? y) end);
    cbn; lia.
Qed.

(** At the head of the loop four more bytes fit in the allocation, so every
    store [buffer[index8++] = ...] of the next unit lands inside it: this is
    what lets [buffer] be the list of the bytes stored so far. *)
Lemma body_capacity w inp s s' :
  body w inp s = Some s' → index8 s <= bufsize s - 4 →
  index8 s' <= bufsize s ∧ index8 s' <= bufsize s' - 4.
Proof.
  unfold body, index8. intros H Hcap.
  destruct (transcode_unit w inp (indexT s)) as [u|] eqn:Hu; [|done].
  cbn [mbind option_bind] in H. injection H as <-. cbn [buffer bufsize].
  apply written_length in Hu. rewrite length_app.
  destruct (Z.gtb_spec (Z.of_nat (length (buffer s) + length (written u)))
                       (bufsize s - 4)); unfold UTFT_BUFSIZE; lia.
Qed.

(** ** Where the loop is left *)

(** C6 (the code departs from the claim). Every iteration advances the
    cursor by 1, 2 or 4 and the loop terminates, but not when the cursor
    reaches the number [N] of input bytes: the bound is [VARSIZE(in)], which
    counts the four bytes of the length word, so the loop is left with the
    cursor between [N + 4] and [N + 7], after transcoding bytes that lie
    after the datum. On the one-byte inputs 41 and 80 followed by zero bytes
    the cursor ends at 5. *)
Theorem loop_left_past_datum :
  (∀ w inp s s', body w inp s = Some s' →
     indexT s' = indexT s + 1 ∨ indexT s' = indexT s + 2 ∨
     indexT s' = indexT s + 4) ∧
  (∀ w datum after, final_indexT w datum after ≠ OutOfFuel) ∧
  (∀ w datum after n, final_indexT w datum after = Done n →
     extent datum + VARHDRSZ <= n <= extent datum + VARHDRSZ + 3) ∧
  final_indexT 64 [0x41] [0; 0; 0; 0] = Done 5 ∧
  final_indexT 64 [0x80] [0; 0; 0; 0] = Done 5.
Proof.
  split; [apply body_advance|]. split; [|split; [|split; by vm_compute]].
  - intros w datum after. unfold final_indexT.
    pose proof (scan_fuel w datum after).
    by destruct (scan w datum after).
  - intros w datum after n. unfold final_indexT.
    destruct (scan w datum after) as [s| |] eqn:Hscan; [|done..].
    intros [= <-]. apply scan_Done in Hscan as [_ Hs].
    unfold VARSIZE in Hs. lia.
Qed.

(** ** Which bytes a unit depends on *)

(** A unit depends on the byte at the cursor and, for a sentinel only, on the
    three bytes after it. *)
Lemma transcode_unit_ext w inp inp' i :
  byte_at inp' i = byte_at inp i →
  (byte_at inp i = Some 0x9B →
   byte_at inp' (i + 1) = byte_at inp (i + 1) ∧
   byte_at inp' (i + 2) = byte_at inp (i + 2) ∧
   byte_at inp' (i + 3) = byte_at inp (i + 3)) →
  transcode_unit w inp' i = transcode_unit w inp i.
Proof.
  intros H0 Hs. unfold transcode_unit. rewrite H0.
  destruct (byte_at inp i) as [b|]; [|done]. cbn [mbind option_bind].
  destruct (Z.eqb_spec b 0x9B) as [Heq|Hne]; [|done].
  subst b. destruct Hs as (-> & -> & ->); done.
Qed.

Lemma body_ext w inp inp' s :
  transcode_unit w inp' (indexT s) = transcode_unit w inp (indexT s) →
  body w inp' s = body w inp s.
Proof. intros H. unfold body. by rewrite H. Qed.

(** ** Concatenation of inputs *)

Lemma extent_app l1 l2 : extent (l1 ++ l2) = extent l1 + extent l2.
Proof. unfold extent. rewrite length_app. lia. Qed.

Lemma byte_at_app_l l1 l2 i b :
  byte_at l1 i = Some b → byte_at (l1 ++ l2) i = Some b.
Proof.
  intros H. pose proof (byte_at_Some _ _ _ H) as (Hi & _ & x & Hx & ->).
  rewrite byte_at_lookup by lia. by rewrite (lookup_app_l_Some _ _ _ _ Hx).
Qed.

Lemma byte_at_app_r l1 l2 i :
  0 <= i → byte_at (l1 ++ l2) (extent l1 + i) = byte_at l2 i.
Proof.
  intros Hi. unfold extent. rewrite !byte_at_lookup by lia.
  rewrite lookup_app_r by lia. do 2 f_equal. lia.
Qed.

Lemma transcode_unit_app_l w l1 l2 i u :
  transcode_unit w l1 i = Some u → transcode_unit w (l1 ++ l2) i = Some u.
Proof.
  intros H. rewrite <- H. pose proof (transcode_unit_cases _ _ _ _ H) as Hc.
  apply transcode_unit_ext.
  - destruct Hc as [(b1 & b2 & b3 & H0 & _) | [(b & H0 & _) | (b & H0 & _)]];
      rewrite H0; by apply byte_at_app_l.
  - intros Hs.
    destruct Hc as [(b1 & b2 & b3 & _ & H1 & H2 & H3 & _)
                   | [(b & H0 & ? & _) | (b & H0 & ? & _)]];
      [|congruence..].
    rewrite H1, H2, H3. repeat split; by apply byte_at_app_l.
Qed.

Lemma transcode_unit_app_r w l1 l2 i :
  0 <= i →
  transcode_unit w (l1 ++ l2) (extent l1 + i) =
    shift_unit (extent l1) <$> transcode_unit w l2 i.
Proof.
  intros Hi. unfold transcode_unit.
  replace (extent l1 + i + 1) with (extent l1 + (i + 1)) by lia.
  replace (extent l1 + i + 2) with (extent l1 + (i + 2)) by lia.
  replace (extent l1 + i + 3) with (extent l1 + (i + 3)) by lia.
  rewrite !byte_at_app_r by lia.
  destruct (byte_at l2 i) as [b|]; [|done]. cbn [mbind option_bind].
  destruct (b =? 0x9B).
  - destruct (byte_at l2 (i + 1)) as [b1|]; [|done].
    destruct (byte_at l2 (i + 2)) as [b2|]; [|done].
    destruct (byte_at l2 (i + 3)) as [b3|]; [|done].
    cbn. unfold shift_unit. cbn. do 2 f_equal. lia.
  - destruct (negb (Z.land b (1 ≪ 7) =? 0)); cbn; unfold shift_unit; cbn;
      do 2 f_equal; lia.
Qed.

Lemma body_app_l w l1 rest s s' :
  body w l1 s = Some s' → body w (l1 ++ rest) s = Some s'.
Proof.
  intros Hb. rewrite <- Hb. apply body_ext. unfold body in Hb.
  destruct (transcode_unit w l1 (indexT s)) as [u|] eqn:Hu; [|done].
  by apply transcode_unit_app_l.
Qed.

(** What the loop does on a piece of memory it also does when more memory
    follows and the bound is farther. *)
Lemma reaches_app_l w maxT maxT' l1 rest s s' :
  reaches w maxT l1 s s' → maxT <= maxT' →
  reaches w maxT' (l1 ++ rest) s s'.
Proof.
  induction 1 as [s|s s1 s' Hlt Hb _ IH]; intros Hle; [constructor|].
  eapply reaches_iter; [lia|by apply body_app_l|by apply IH].
Qed.

(** Scanning [l1 ++ l2] from the end of [l1] is scanning [l2], with the bytes
    stored so far in front. *)
Lemma while_app_r f w m l1 l2 o1 s s2 :
  0 <= indexT s2 → indexT s = extent l1 + indexT s2 →
  buffer s = o1 ++ buffer s2 →
  outcome_map buffer (while f w (extent l1 + m) (l1 ++ l2) s) =
    outcome_map (λ r, o1 ++ buffer r) (while f w m l2 s2).
Proof.
  revert s s2. induction f as [|f IH]; intros s s2 H0 Hi Hbuf; cbn [while].
  - destruct (Z.ltb_spec (indexT s) (extent l1 + m)),
             (Z.ltb_spec (indexT s2) m); try lia; [done|].
    cbn. by rewrite Hbuf.
  - destruct (Z.ltb_spec (indexT s) (extent l1 + m)),
             (Z.ltb_spec (indexT s2) m); try lia;
      [|cbn; by rewrite Hbuf].
    unfold body. rewrite Hi, transcode_unit_app_r by done.
    destruct (transcode_unit w l2 (indexT s2)) as [u|] eqn:Hu; [|done].
    cbn [fmap option_fmap option_map mbind option_bind].
    apply IH; cbn [indexT buffer shift_unit next_indexT written].
    + apply transcode_unit_advance in Hu. lia.
    + done.
    + by rewrite Hbuf, app_assoc.
Qed.

Lemma to_text_app b1 b2 o2 :
  to_text b2 = Done o2 → to_text (b1 ++ b2) = Done (b1 ++ o2).
Proof.
  intros (Hlen & ->)%to_text_Done. unfold to_text, VARHDRSZ.
  rewrite length_app.
  destruct (Z.ltb_spec (Z.of_nat (length b1 + length b2)) 4); [lia|].
  f_equal. rewrite take_app_ge by lia. do 2 f_equal. lia.
Qed.

(** The call on [l1 ++ l2] when the scan of [l1] ends exactly at its end. *)
Lemma scan_app w l1 l2 after s1 s2 :
  reaches w (extent l1) l1 init s1 → indexT s1 = extent l1 →
  scan w l2 after = Done s2 →
  outcome_map buffer (scan w (l1 ++ l2) after) = Done (buffer s1 ++ buffer s2).
Proof.
  unfold scan. intros Hr Hend Hscan2.
  assert (Hsize : VARSIZE (l1 ++ l2) = extent l1 + VARSIZE l2)
    by (unfold VARSIZE; rewrite extent_app; lia).
  assert (Hpos : 0 <= extent l1 ∧ 0 <= VARSIZE l2)
    by (unfold VARSIZE, VARHDRSZ, extent; lia).
  rewrite Hsize, <- app_assoc.
  pose proof (reaches_app_l _ _ (extent l1 + VARSIZE l2) _ (l2 ++ after) _ _ Hr
                ltac:(lia)) as Hr'.
  destruct (reaches_while _ _ _ _ _ Hr' (Z.to_nat (extent l1 + VARSIZE l2)))
    as (f' & Hf' & ->); [cbn [indexT init]; lia|].
  rewrite (while_app_r f' w (VARSIZE l2) l1 (l2 ++ after) (buffer s1) s1 init);
    [|done|cbn [indexT init]; lia|cbn [buffer init]; by rewrite app_nil_r].
  replace f' with (Z.to_nat (VARSIZE l2) + (f' - Z.to_nat (VARSIZE l2)))%nat
    by lia.
  rewrite while_fuel_mono; rewrite Hscan2; done.
Qed.

(** C7 (amended). When [input1] is a whole number of units (its scan, alone
    and up to its length, ends exactly at its end in a state [s1]), decoding
    [input1 ++ input2] returns the bytes stored for [input1] followed by what
    decoding [input2] returns in front of the same memory. *)
Theorem decode_concat_at_boundary w input1 input2 after s1 o2 :
  reaches w (extent input1) input1 init s1 → indexT s1 = extent input1 →
  utft_to_utf8 w input2 after = Done o2 →
  utft_to_utf8 w (input1 ++ input2) after = Done (buffer s1 ++ o2).
Proof.
  intros Hr Hend (s2 & Hscan2 & Htext2)%utft_to_utf8_Done.
  pose proof (scan_app w input1 input2 after s1 s2 Hr Hend Hscan2) as Hbuf.
  unfold utft_to_utf8.
  destruct (scan w (input1 ++ input2) after) as [s| |]; [|done..].
  injection Hbuf as ->. by apply to_text_app.
Qed.

Lemma decode_concat_at_boundary_witness :
  utft_to_utf8 64 ([0x9B; 0xBC; 0x81; 0xE7] ++ [0x41; 0xE9; 0x42]) [0; 0; 0; 0] =
  Done (buffer (State 4 UTFT_BUFSIZE [0xC3; 0xA7]) ++ [0x41; 0xC3; 0xA9]).
Proof.
  apply (decode_concat_at_boundary 64 [0x9B; 0xBC; 0x81; 0xE7]
           [0x41; 0xE9; 0x42] [0; 0; 0; 0] (State 4 UTFT_BUFSIZE [0xC3; 0xA7])).
  - eapply reaches_iter; [by vm_compute | by vm_compute | apply reaches_here].
  - reflexivity.
  - by vm_compute.
Defined.

(** C7 as stated fails: with zero bytes after each datum, 80 decodes to C2
    and 41 to 41, but 80 41 decodes to C2 80: the unit that starts at 80
    swallows the byte after it. *)
Lemma concat_swallows_byte :
  utft_to_utf8 64 [0x80] [0; 0; 0; 0] = Done [0xC2] ∧
  utft_to_utf8 64 [0x41] [0; 0; 0; 0] = Done [0x41] ∧
  utft_to_utf8 64 ([0x80] ++ [0x41]) [0; 0; 0; 0] = Done [0xC2; 0x80] ∧
  [0xC2; 0x80] ≠ [0xC2] ++ [0x41].
Proof. repeat split; by vm_compute. Qed.

(** ** The byte after a high-bit byte *)

(** Changing a byte before the cursor does not change the rest of the scan. *)
Lemma while_insert_before f w maxT inp j y s :
  0 <= j < indexT s →
  while f w maxT (<[Z.to_nat j := y]> inp) s = while f w maxT inp s.
Proof.
  revert s. induction f as [|f IH]; intros s Hj; cbn [while]; [done|].
  destruct (Z.ltb_spec (indexT s) maxT); [|done].
  rewrite (body_ext w inp).
  - destruct (body w inp s) as [s'|] eqn:Hb; [|done].
    apply IH. apply body_advance in Hb. lia.
  - apply transcode_unit_ext; [|intros _; repeat split];
      apply byte_at_insert_ne; lia.
Qed.

(** Changing the byte after a visited high-bit byte does not change the scan. *)
Lemma while_insert_skipped w maxT inp s0 s b y :
  reaches w maxT inp s0 s →
  byte_at inp (indexT s) = Some b → Z.land b 0x80 ≠ 0 → b ≠ 0x9B →
  ∀ f, while f w maxT (<[Z.to_nat (indexT s + 1) := y]> inp) s0 =
       while f w maxT inp s0.
Proof.
  intros Hr Hb Hhi Hne. pose proof (byte_at_Some _ _ _ Hb) as (Hi & _).
  induction Hr as [s|s0 s' s Hlt Hbody Hr IH]; intros f.
  - destruct f; cbn [while]; [done|].
    destruct (Z.ltb_spec (indexT s) maxT); [|done].
    rewrite (body_ext w inp).
    + destruct (body w inp s) as [s'|] eqn:Hbody; [|done].
      apply while_insert_before.
      apply body_inv in Hbody as (u & Hu & Hnext & _).
      rewrite (high_bit_unit w inp _ b) in Hu by done.
      injection Hu as <-. cbn in Hnext. lia.
    + apply transcode_unit_ext; [apply byte_at_insert_ne; lia|].
      intros Hs. congruence.
  - specialize (IH Hb Hi). pose proof (reaches_le _ _ _ _ _ Hr) as Hle.
    destruct f; cbn [while]; [done|].
    destruct (Z.ltb_spec (indexT s0) maxT); [|done].
    rewrite (body_ext w inp).
    + rewrite Hbody. apply IH.
    + pose proof (body_advance _ _ _ _ Hbody) as Hadv.
      apply body_inv in Hbody as (u & Hu & Hnext & _).
      pose proof (transcode_unit_bound _ _ _ _ Hu) as (H0 & _).
      apply transcode_unit_ext; [apply byte_at_insert_ne; lia|].
      intros Hs.
      apply transcode_unit_cases in Hu
        as [(b1 & b2 & b3 & _ & _ & _ & _ & ->)
           | [(b' & Hb' & ? & _) | (b' & Hb' & ? & _)]];
        [|congruence..].
      cbn in Hnext. repeat split; apply byte_at_insert_ne; lia.
Qed.

(** C9. If the cursor of a call visits a position whose byte has its high bit
    set and is not 0x9B, the result of the call is the same whatever the byte
    at the next position is, be it a byte of the input or of the memory after
    it. *)
Theorem skipped_byte_irrelevant w datum after datum' after' s b y :
  reaches w (VARSIZE datum) (datum ++ after) init s →
  byte_at (datum ++ after) (indexT s) = Some b → Z.land b 0x80 ≠ 0 →
  b ≠ 0x9B →
  length datum' = length datum →
  datum' ++ after' = <[Z.to_nat (indexT s + 1) := y]> (datum ++ after) →
  utft_to_utf8 w datum' after' = utft_to_utf8 w datum after.
Proof.
  intros Hr Hb Hhi Hne Hlen Hmem. unfold utft_to_utf8, scan.
  replace (VARSIZE datum') with (VARSIZE datum)
    by (unfold VARSIZE, extent; by rewrite Hlen).
  by rewrite Hmem, (while_insert_skipped w _ _ init s b y).
Qed.

Lemma skipped_byte_irrelevant_witness :
  utft_to_utf8 64 [0x41; 0xE9; 0x9B; 0x43] [0; 0; 0; 0] =
  utft_to_utf8 64 [0x41; 0xE9; 0x42; 0x43] [0; 0; 0; 0].
Proof.
  apply (skipped_byte_irrelevant 64 [0x41; 0xE9; 0x42; 0x43] [0; 0; 0; 0]
           [0x41; 0xE9; 0x9B; 0x43] [0; 0; 0; 0]
           (State 1 UTFT_BUFSIZE [0x41]) 0xE9 0x9B).
  - eapply reaches_iter; [by vm_compute | by vm_compute | apply reaches_here].
  - reflexivity.
  - by vm_compute.
  - lia.
  - reflexivity.
  - reflexivity.
Defined.

(** * Further properties of [utft_to_utf8] *)

(** ** The value carried by the bytes stored *)

Lemma lor_mul_add lo hi k :
  0 <= k → 0 <= lo < 2 ^ k → Z.lor lo (hi * 2 ^ k) = lo + hi * 2 ^ k.
Proof.
  intros Hk Hlo. rewrite <- (lor_shiftl_add lo hi k) by lia.
  by rewrite Z.shiftl_mul_pow2 by lia.
Qed.

(** Masking the payload bits back out of [lead | (x & mask)]. *)
Lemma land_lor_lead lead x k :
  Z.land lead (Z.ones k) = 0 →
  Z.land (Z.lor lead (Z.land x (Z.ones k))) (Z.ones k) = Z.land x (Z.ones k).
Proof.
  intros Hl. rewrite Z.land_lor_distr_l, Hl, Z.lor_0_l.
  by rewrite <- Z.land_assoc, Z.land_diag.
Qed.

Lemma utf8_value_2 c : 0 <= c < 0x800 → utf8_value (utf8_2 c) = c.
Proof.
  intros Hc. rewrite utf8_2_bytes. cbn [utf8_value].
  change 0x1F with (Z.ones 5). change 0x3F with (Z.ones 6).
  rewrite (land_lor_lead 0xC0 _ 5), (land_lor_lead 0x80 _ 6) by done.
  rewrite Z.lor_comm, lor_shiftl_add by (try apply land_ones_bound; lia).
  rewrite !Z.land_ones, Z.shiftr_div_pow2 by lia.
  change (2 ^ 6) with 64. change (2 ^ 5) with 32.
  Z.div_mod_to_equations. lia.
Qed.

Lemma utf8_value_3 c : 0 <= c < 0x10000 → utf8_value (utf8_3 c) = c.
Proof.
  intros Hc. rewrite utf8_3_bytes. cbn [utf8_value].
  change 0x0F with (Z.ones 4). change 0x3F with (Z.ones 6).
  rewrite (land_lor_lead 0xE0 _ 4), !(land_lor_lead 0x80 _ 6) by done.
  pose proof (land_ones_bound (Z.shiftr c 12) 4 ltac:(lia)) as Ha.
  pose proof (land_ones_bound (Z.shiftr c 6) 6 ltac:(lia)) as Hb.
  pose proof (land_ones_bound c 6 ltac:(lia)) as Hd.
  change (2 ^ 4) with 16 in Ha. change (2 ^ 6) with 64 in Hb, Hd.
  rewrite (Z.lor_comm (Z.shiftl _ 12)).
  rewrite (Z.shiftl_mul_pow2 _ 6) by lia.
  rewrite lor_shiftl_add by (change (2 ^ 12) with 4096; change (2 ^ 6) with 64; lia).
  rewrite Z.lor_comm.
  match goal with |- Z.lor _ ?X = _ =>
    replace X with ((Z.land (Z.shiftr c 6) (Z.ones 6)
                     + Z.land (Z.shiftr c 12) (Z.ones 4) * 64) * 2 ^ 6)
      by (change (2 ^ 12) with 4096; change (2 ^ 6) with 64; lia) end.
  rewrite lor_mul_add by (change (2 ^ 6) with 64; lia).
  rewrite !Z.land_ones, !Z.shiftr_div_pow2 by lia.
  change (2 ^ 6) with 64. change (2 ^ 4) with 16. change (2 ^ 12) with 4096.
  Z.div_mod_to_equations. lia.
Qed.

Lemma cont_payload y : 0 <= y < 64 → Z.land (Z.lor 0x80 y) 0x3F = y.
Proof.
  intros Hy. rewrite Z.land_lor_distr_l. change (Z.land 128 63) with 0.
  rewrite Z.lor_0_l. change 63 with (Z.ones 6).
  rewrite Z.land_ones by lia. apply Z.mod_small. change (2 ^ 6) with 64. lia.
Qed.

(** The 4-byte branch only stores bits 13..0 of [c]. *)
Lemma utf8_4_low14 c : utf8_4 c = utf8_4 (c mod 2 ^ 14).
Proof.
  rewrite !utf8_4_bytes. change (2 ^ 14) with 16384.
  change 0x03 with (Z.ones 2). change 0x3F with (Z.ones 6).
  rewrite !Z.land_ones, !Z.shiftr_div_pow2 by lia.
  change (2 ^ 2) with 4. change (2 ^ 6) with 64. change (2 ^ 12) with 4096.
  assert (H12 : c mod 16384 / 4096 mod 4 = c / 4096 mod 4)
    by (Z.div_mod_to_equations; lia).
  assert (H6 : c mod 16384 / 64 mod 64 = c / 64 mod 64)
    by (Z.div_mod_to_equations; lia).
  assert (H0 : c mod 16384 mod 64 = c mod 64)
    by (Z.div_mod_to_equations; lia).
  by rewrite H12, H6, H0.
Qed.

Lemma utf8_value_4 c : utf8_value (utf8_4 c) = c mod 2 ^ 14.
Proof.
  rewrite utf8_4_bytes. cbn [utf8_value].
  change (Z.shiftl (Z.land 240 7) 18) with 0. rewrite Z.lor_0_l.
  pose proof (land_ones_bound (Z.shiftr c 12) 2 ltac:(lia)) as Ha.
  pose proof (land_ones_bound (Z.shiftr c 6) 6 ltac:(lia)) as Hb.
  pose proof (land_ones_bound c 6 ltac:(lia)) as Hd.
  change (Z.ones 2) with 3 in Ha. change (Z.ones 6) with 63 in Hb, Hd.
  change (2 ^ 2) with 4 in Ha. change (2 ^ 6) with 64 in Hb, Hd.
  rewrite !cont_payload by lia.
  rewrite (Z.lor_comm (Z.shiftl _ 12)).
  rewrite (Z.shiftl_mul_pow2 _ 6) by lia.
  rewrite lor_shiftl_add by (change (2 ^ 12) with 4096; change (2 ^ 6) with 64; lia).
  rewrite Z.lor_comm.
  match goal with |- Z.lor _ ?X = _ =>
    replace X with ((Z.land (Z.shiftr c 6) 63
                     + Z.land (Z.shiftr c 12) 3 * 64) * 2 ^ 6)
      by (change (2 ^ 12) with 4096; change (2 ^ 6) with 64; lia) end.
  rewrite lor_mul_add by (change (2 ^ 6) with 64; lia).
  change 3 with (Z.ones 2). change 63 with (Z.ones 6).
  rewrite !Z.land_ones, !Z.shiftr_div_pow2 by lia.
  change (2 ^ 6) with 64. change (2 ^ 2) with 4. change (2 ^ 12) with 4096.
  change (2 ^ 14) with 16384.
  Z.div_mod_to_equations. lia.
Qed.

Lemma utf8_value_encode c : 0 <= c < 0xFFFF → utf8_value (utf8_encode c) = c.
Proof.
  intros Hc. unfold utf8_encode.
  destruct (Z.ltb_spec c 0x7F); [|destruct (Z.ltb_spec c 0x07FF);
    [|destruct (Z.ltb_spec c 0xFFFF); [|lia]]].
  - cbn. unfold uchar. apply Z.mod_small. lia.
  - apply utf8_value_2. lia.
  - apply utf8_value_3. lia.
Qed.

Lemma code_point_nonneg w b1 b2 b3 : 32 <= w → 0 <= code_point w b1 b2 b3 < 2 ^ w.
Proof.
  intros Hw. unfold code_point, ulong. pose proof (pow2_ge_32 w Hw).
  apply Z.mod_pos_bound. lia.
Qed.

(** X6. Whatever the branch, a unit whose code point is below 0xFFFF stores a
    UTF-8 sequence that carries exactly that code point. *)
Theorem unit_value_below_FFFF w inp i u :
  32 <= w → transcode_unit w inp i = Some u → c u < 0xFFFF →
  utf8_value (written u) = c u.
Proof.
  intros Hw H Hc. unit_cases H; cbn [c written] in *.
  - apply utf8_value_encode. pose proof (code_point_nonneg w b1 b2 b3 Hw). lia.
  - apply byte_at_Some in H0. apply utf8_value_2. lia.
  - done.
Qed.

Lemma unit_value_below_FFFF_witness :
  utf8_value (written (UnitOut 4 0x20AC [0xE2; 0x82; 0xAC])) =
  c (UnitOut 4 0x20AC [0xE2; 0x82; 0xAC]).
Proof.
  apply (unit_value_below_FFFF 64 [0x9B; 0xBC; 0xC1; 0xAC] 0);
    [lia | reflexivity | by vm_compute].
Defined.

(** X7. From 0xFFFF on, the bytes stored depend on the code point only
    through its low 14 bits, and that is all they carry: two code points that
    agree modulo [2^14] are stored as the same four bytes. *)
Theorem four_byte_branch_collides c1 c2 :
  0xFFFF <= c1 → 0xFFFF <= c2 → c1 mod 2 ^ 14 = c2 mod 2 ^ 14 →
  utf8_encode c1 = utf8_encode c2 ∧
  length (utf8_encode c1) = 4%nat ∧
  utf8_value (utf8_encode c1) = c1 mod 2 ^ 14.
Proof.
  intros H1 H2 Heq.
  assert (He : ∀ x, 0xFFFF <= x → utf8_encode x = utf8_4 x).
  { intros x Hx. unfold utf8_encode.
    repeat (match goal with |- context [?a <? ?b] =>
              destruct (Z.ltb_spec a b); [lia|] end).
    done. }
  rewrite !He by done. split; [|split].
  - by rewrite (utf8_4_low14 c1), (utf8_4_low14 c2), Heq.
  - done.
  - apply utf8_value_4.
Qed.

Lemma four_byte_branch_collides_witness :
  utf8_encode 0x10000 = utf8_encode 0x1C000 ∧
  length (utf8_encode 0x10000) = 4%nat ∧
  utf8_value (utf8_encode 0x10000) = 0x10000 mod 2 ^ 14.
Proof. apply (four_byte_branch_collides 0x10000 0x1C000); [lia | lia | reflexivity]. Defined.

(** ** Width of [unsigned long] *)

Lemma pow2_mod14 w x : 32 <= w → (2 ^ w + x) mod 2 ^ 14 = x mod 2 ^ 14.
Proof.
  intros Hw. replace w with ((w - 14) + 14) by lia.
  rewrite Z.pow_add_r by lia. rewrite Z.add_comm. apply Z_mod_plus_full.
Qed.

Lemma utf8_encode_width w w' b1 b2 b3 :
  32 <= w → 32 <= w' →
  utf8_encode (code_point w b1 b2 b3) = utf8_encode (code_point w' b1 b2 b3).
Proof.
  intros Hw Hw'. pose proof (payload_bounds b1 b2 b3) as Hp.
  destruct (Z.le_gt_cases 0x0F0000 (payload b1 b2 b3)) as [Hge|Hlt].
  - by rewrite !code_point_exact.
  - rewrite !code_point_wraps by lia.
    pose proof (pow2_ge_32 w Hw). pose proof (pow2_ge_32 w' Hw').
    unfold utf8_encode.
    repeat (match goal with |- context [?a <? ?b] =>
              destruct (Z.ltb_spec a b); [lia|] end).
    rewrite (utf8_4_low14 (2 ^ w + _ - _)), (utf8_4_low14 (2 ^ w' + _ - _)).
    rewrite <- !Z.add_sub_assoc, !pow2_mod14 by done. done.
Qed.

Lemma body_width w w' inp s :
  32 <= w → 32 <= w' → body w inp s = body w' inp s.
Proof.
  intros Hw Hw'. unfold body, transcode_unit.
  destruct (byte_at inp (indexT s)) as [b|]; [|done]. cbn [mbind option_bind].
  destruct (b =? 0x9B); [|done].
  destruct (byte_at inp (indexT s + 1)) as [b1|]; [|done].
  destruct (byte_at inp (indexT s + 2)) as [b2|]; [|done].
  destruct (byte_at inp (indexT s + 3)) as [b3|]; [|done].
  cbn. by rewrite (utf8_encode_width w w').
Qed.

Lemma while_width f w w' maxT inp s :
  32 <= w → 32 <= w' → while f w maxT inp s = while f w' maxT inp s.
Proof.
  intros Hw Hw'. revert s. induction f as [|f IH]; intros s; cbn [while];
    [done|].
  destruct (indexT s <? maxT); [|done].
  rewrite (body_width w w') by done.
  destruct (body w' inp s); [apply IH|done].
Qed.

(** X8. The result does not depend on the width of [unsigned long], 32 bits
    or more, whatever the input and the memory after it: not on well-formed
    units, whose subtraction does not wrap, and not on the others, because
    the 4-byte branch drops the wrapped bits. *)
Theorem width_independent w w' datum after :
  32 <= w → 32 <= w' → utft_to_utf8 w datum after = utft_to_utf8 w' datum after.
Proof.
  intros Hw Hw'. unfold utft_to_utf8, scan. by rewrite (while_width _ w w').
Qed.

Lemma width_independent_witness :
  utft_to_utf8 32 [0x9B; 0x80; 0x80; 0xC1; 0x9B; 0xBC; 0xC1; 0xAC] [0; 0; 0; 0] =
  utft_to_utf8 64 [0x9B; 0x80; 0x80; 0xC1; 0x9B; 0xBC; 0xC1; 0xAC] [0; 0; 0; 0].
Proof. apply width_independent; lia. Defined.

(** ** The shape of the bytes stored *)

Lemma lor_lead_bounds lead h x k :
  0 <= k → lead = h * 2 ^ k →
  lead <= Z.lor lead (Z.land x (Z.ones k)) < lead + 2 ^ k.
Proof.
  intros Hk ->. pose proof (land_ones_bound x k Hk).
  rewrite Z.lor_comm, lor_mul_add by lia. lia.
Qed.

Ltac shape_bounds :=
  unfold continuation;
  rewrite ?andb_true_iff, ?Z.leb_le, ?Z.ltb_lt;
  repeat match goal with
  | |- context [Z.lor ?lead (Z.land ?x (Z.ones ?k))] =>
      let Hb := fresh "Hb" in
      pose proof (lor_lead_bounds lead (lead / 2 ^ k) x k ltac:(lia) eq_refl) as Hb;
      change (2 ^ k) with (Z.pow_pos 2 (Z.to_pos k)) in Hb; cbn in Hb;
      generalize dependent (Z.lor lead (Z.land x (Z.ones k))); intros
  end;
  lia.

Lemma utf8_2_shape c : utf8_sequence (utf8_2 c) = true.
Proof.
  rewrite utf8_2_bytes. cbn [utf8_sequence].
  change 0x1F with (Z.ones 5). change 0x3F with (Z.ones 6). shape_bounds.
Qed.

Lemma utf8_3_shape c : utf8_sequence (utf8_3 c) = true.
Proof.
  rewrite utf8_3_bytes. cbn [utf8_sequence].
  change 0x0F with (Z.ones 4). change 0x3F with (Z.ones 6). shape_bounds.
Qed.

Lemma utf8_4_shape c : utf8_sequence (utf8_4 c) = true.
Proof.
  rewrite utf8_4_bytes. cbn [utf8_sequence].
  change 0x03 with (Z.ones 2). change 0x3F with (Z.ones 6). shape_bounds.
Qed.

Lemma utf8_encode_shape c : 0 <= c → utf8_sequence (utf8_encode c) = true.
Proof.
  intros Hc. unfold utf8_encode.
  destruct (Z.ltb_spec c 0x7F); [|destruct (Z.ltb_spec c 0x07FF);
    [|destruct (Z.ltb_spec c 0xFFFF)]];
    auto using utf8_2_shape, utf8_3_shape, utf8_4_shape.
  unfold utf8_1, uchar. rewrite Z.mod_small by lia. cbn [utf8_sequence].
  rewrite andb_true_iff, Z.leb_le, Z.ltb_lt. lia.
Qed.

Lemma unit_shape w inp i u :
  32 <= w → transcode_unit w inp i = Some u → utf8_sequence (written u) = true.
Proof.
  intros Hw H. unit_cases H; cbn [written].
  - apply utf8_encode_shape. by apply code_point_nonneg.
  - apply utf8_2_shape.
  - apply byte_at_Some in H0 as (_ & Hb & _). cbn [utf8_sequence].
    rewrite andb_true_iff, Z.leb_le, Z.ltb_lt.
    destruct (Z.lt_ge_cases b 0x80); [lia|].
    change (1 ≪ 7) with 0x80 in Hlo. by apply high_bit_set in Hlo; [|lia].
Qed.

Lemma shaped_snoc out bs :
  utf8_shaped out → utf8_sequence bs = true → utf8_shaped (out ++ bs).
Proof.
  intros Hout Hbs. induction Hout as [|x rest Hx _ IH].
  - change ([] ++ bs) with bs. rewrite <- (app_nil_r bs).
    constructor; [done|constructor].
  - rewrite <- app_assoc. by constructor.
Qed.

Lemma reaches_shaped w maxT inp s s' :
  32 <= w → reaches w maxT inp s s' →
  utf8_shaped (buffer s) → utf8_shaped (buffer s').
Proof.
  intros Hw. induction 1 as [|s s1 s' _ Hb _ IH]; [done|].
  intros Hs. apply IH.
  apply body_inv in Hb as (u & Hu & _ & ->).
  apply shaped_snoc; [done|]. by apply (unit_shape w inp (indexT s)).
Qed.

(** X5. At every loop head the bytes stored so far are a string of UTF-8
    sequences: each byte below 0x80 stands alone, each byte 110xxxxx,
    1110xxxx or 11110xxx is followed by exactly one, two or three bytes
    10xxxxxx, and no other byte occurs. The text returned is such a string
    without its last four bytes. *)
Theorem buffer_utf8_shaped w :
  32 <= w →
  (∀ maxT inp s, reaches w maxT inp init s → utf8_shaped (buffer s)) ∧
  (∀ datum after out, utft_to_utf8 w datum after = Done out →
     ∃ tl, length tl = 4%nat ∧ utf8_shaped (out ++ tl)).
Proof.
  intros Hw.
  assert (Hall : ∀ maxT inp s,
            reaches w maxT inp init s → utf8_shaped (buffer s)).
  { intros maxT inp s Hr. apply (reaches_shaped _ _ _ _ _ Hw Hr). constructor. }
  split; [done|].
  intros datum after out (s & Hscan & Htext)%utft_to_utf8_Done.
  apply scan_Done in Hscan as [Hr _]. apply Hall in Hr.
  apply to_text_Done in Htext as (Hlen & ->).
  exists (drop (length (buffer s) - 4) (buffer s)). split.
  - rewrite length_drop. lia.
  - by rewrite take_drop.
Qed.

Lemma buffer_utf8_shaped_witness :
  (∀ maxT inp s, reaches 64 maxT inp init s → utf8_shaped (buffer s)) ∧
  (∀ datum after out, utft_to_utf8 64 datum after = Done out →
     ∃ tl, length tl = 4%nat ∧ utf8_shaped (out ++ tl)).
Proof. apply (buffer_utf8_shaped 64). lia. Defined.

(** ** Length of the output *)

Lemma unit_written_advance w inp i u :
  transcode_unit w inp i = Some u →
  1 <= Z.of_nat (length (written u)) <= next_indexT u - i ∧
  next_indexT u - i <= 4.
Proof.
  intros H. unit_cases H; cbn [written next_indexT]; [|cbn; lia..].
  unfold utf8_encode.
  repeat (match goal with |- context [?x <? ?y] => destruct (x <? y) end);
    cbn; lia.
Qed.

(** Bytes stored against bytes consumed. *)
Lemma reaches_written_consumed w maxT inp s s' :
  reaches w maxT inp s s' →
  index8 s <= indexT s <= 4 * index8 s →
  index8 s' <= indexT s' <= 4 * index8 s'.
Proof.
  induction 1 as [|s s1 s' _ Hb _ IH]; [done|].
  intros Hs. apply IH.
  apply body_inv in Hb as (u & Hu & Hi & Hbuf).
  apply unit_written_advance in Hu. unfold index8 in *.
  rewrite Hbuf, length_app, Hi. lia.
Qed.

(** X2. When the call returns, the text has at most three bytes more than
    the input, and the input has at most four bytes for each byte of the text
    and twelve more: every iteration stores between one byte and as many
    bytes as it advances the cursor, it advances by four at most, and the
    loop is left between [N + 4] and [N + 7]. *)
Theorem output_length w datum after out :
  utft_to_utf8 w datum after = Done out →
  Z.of_nat (length out) <= extent datum + 3 ∧
  extent datum <= 4 * Z.of_nat (length out) + 12.
Proof.
  intros (s & Hscan & Htext)%utft_to_utf8_Done.
  apply scan_Done in Hscan as [Hr Hs].
  apply reaches_written_consumed in Hr; [|by vm_compute].
  apply to_text_Done in Htext as (Hlen & ->).
  rewrite length_take_le by lia.
  unfold index8, VARSIZE, VARHDRSZ in *. lia.
Qed.

Lemma output_length_witness :
  Z.of_nat (length [0x41; 0xC3]) <= extent [0x41; 0xE9] + 3 ∧
  extent [0x41; 0xE9] <= 4 * Z.of_nat (length [0x41; 0xC3]) + 12.
Proof. apply (output_length 64 [0x41; 0xE9] [0; 0; 0; 0]). by vm_compute. Defined.

(** ** Reads past the datum *)

Lemma body_reads w inp s s' :
  body w inp s = Some s' → ∃ b, byte_at inp (indexT s) = Some b.
Proof.
  intros (u & Hu & _)%body_inv.
  apply transcode_unit_cases in Hu
    as [(b1 & b2 & b3 & H0 & _) | [(b & H0 & _) | (b & H0 & _)]]; eauto.
Qed.

(** A loop that completes runs an iteration in each window of four cursor
    positions below its bound. *)
Lemma while_crosses f w maxT inp lo s0 s' :
  while f w maxT inp s0 = Done s' → indexT s0 < lo + 4 → lo + 4 <= maxT →
  ∃ s b, reaches w maxT inp s0 s ∧ lo <= indexT s < maxT ∧
         byte_at inp (indexT s) = Some b.
Proof.
  revert s0. induction f as [|f IH]; intros s0; cbn [while].
  - destruct (Z.ltb_spec (indexT s0) maxT); [done|lia].
  - destruct (Z.ltb_spec (indexT s0) maxT); [|lia].
    destruct (body w inp s0) as [s1|] eqn:Hb; [|done].
    intros Hw Hlo Hmax.
    destruct (Z.le_gt_cases lo (indexT s0)) as [Hge|Hlt].
    + destruct (body_reads _ _ _ _ Hb) as [b Hb0].
      exists s0, b. split; [constructor|]. split; [lia|done].
    + pose proof (body_advance _ _ _ _ Hb) as Hadv.
      destruct (IH s1 Hw ltac:(lia) Hmax) as (s & b & Hr & Hs & Hb0).
      exists s, b. split; [|done]. by eapply reaches_iter.
Qed.

(** X3. Every call reads memory that lies after its datum. When the loop
    completes, one of its iterations had its cursor at or past the end of the
    data bytes and read the byte there; when nothing readable follows the
    datum, the loop stops on a read outside the memory. *)
Theorem reads_past_datum w datum :
  scan w datum [] = Undefined ∧
  ∀ after s', scan w datum after = Done s' →
    ∃ s b, reaches w (VARSIZE datum) (datum ++ after) init s ∧
           extent datum <= indexT s < VARSIZE datum ∧
           byte_at (datum ++ after) (indexT s) = Some b.
Proof.
  assert (Hrun : ∀ after s', scan w datum after = Done s' →
    ∃ s b, reaches w (VARSIZE datum) (datum ++ after) init s ∧
           extent datum <= indexT s < VARSIZE datum ∧
           byte_at (datum ++ after) (indexT s) = Some b).
  { unfold scan. intros after s' Hw.
    apply (while_crosses _ _ _ _ (extent datum)) in Hw;
      [done|cbn [indexT init]; unfold extent; lia|unfold VARSIZE, VARHDRSZ; lia]. }
  split; [|done].
  pose proof (scan_fuel w datum []) as Hfuel.
  destruct (scan w datum []) as [s'| |] eqn:Hscan; [|done..].
  destruct (Hrun _ _ Hscan) as (s & b & _ & Hs & Hb).
  apply byte_at_Some in Hb as (Hi & _).
  rewrite app_nil_r in Hi. lia.
Qed.

(** ** Capacity of the output buffer, from the first allocation on *)

Lemma body_capacity_form w inp s s' :
  body w inp s = Some s' →
  index8 s + 4 <= bufsize s ∧ bufsize s mod 512 = 0 ∧
    (bufsize s = 512 ∨ bufsize s - 516 < index8 s) →
  index8 s' + 4 <= bufsize s' ∧ bufsize s' mod 512 = 0 ∧
    (bufsize s' = 512 ∨ bufsize s' - 516 < index8 s').
Proof.
  unfold body, index8. intros H Hinv.
  destruct (transcode_unit w inp (indexT s)) as [u|] eqn:Hu; [|done].
  cbn [mbind option_bind] in H. injection H as <-. cbn [buffer bufsize].
  apply written_length in Hu. rewrite length_app.
  destruct (Z.gtb_spec (Z.of_nat (length (buffer s) + length (written u)))
                       (bufsize s - 4)); unfold UTFT_BUFSIZE;
    (split; [lia|split; [Z.div_mod_to_equations; lia|lia]]).
Qed.

Lemma reaches_capacity_form w maxT inp s s' :
  reaches w maxT inp s s' →
  index8 s + 4 <= bufsize s ∧ bufsize s mod 512 = 0 ∧
    (bufsize s = 512 ∨ bufsize s - 516 < index8 s) →
  index8 s' + 4 <= bufsize s' ∧ bufsize s' mod 512 = 0 ∧
    (bufsize s' = 512 ∨ bufsize s' - 516 < index8 s').
Proof.
  induction 1 as [|s s1 s' _ Hb _ IH]; [done|].
  intros Hinv. apply IH. by apply (body_capacity_form _ _ _ _ Hb).
Qed.

(** X4. Each time the loop is at its head, whatever its bound, four more
    bytes fit in the allocation and the capacity is the multiple of 512 that
    the number of bytes stored determines, [512 * ((index8 + 515) / 512)]; the
    stores of the next iteration all land inside that capacity. *)
Theorem buffer_never_overflows w maxT inp s :
  reaches w maxT inp init s →
  index8 s + 4 <= bufsize s ∧
  bufsize s = UTFT_BUFSIZE * ((index8 s + 515) / 512) ∧
  ∀ s', body w inp s = Some s' → index8 s' <= bufsize s.
Proof.
  intros Hr.
  destruct (reaches_capacity_form _ _ _ _ _ Hr) as (Hfit & Hmod & Htight).
  { split; [by vm_compute|]. split; [done|by left]. }
  split; [done|]. split.
  - unfold UTFT_BUFSIZE. unfold index8 in *. Z.div_mod_to_equations. lia.
  - intros s' Hb. apply (body_capacity _ _ _ _ Hb). lia.
Qed.

Lemma buffer_never_overflows_witness :
  index8 (State 1 UTFT_BUFSIZE [0x41]) + 4 <= bufsize (State 1 UTFT_BUFSIZE [0x41]) ∧
  bufsize (State 1 UTFT_BUFSIZE [0x41]) =
    UTFT_BUFSIZE * ((index8 (State 1 UTFT_BUFSIZE [0x41]) + 515) / 512) ∧
  ∀ s', body 64 ([0x41; 0xE9] ++ [0; 0; 0; 0]) (State 1 UTFT_BUFSIZE [0x41]) = Some s' →
        index8 s' <= bufsize (State 1 UTFT_BUFSIZE [0x41]).
Proof.
  apply (buffer_never_overflows 64 (VARSIZE [0x41; 0xE9])
           ([0x41; 0xE9] ++ [0; 0; 0; 0])).
  eapply reaches_iter; [by vm_compute | by vm_compute | apply reaches_here].
Defined.

(** ** Well-formed text *)

Lemma byte_at_head b l : 0 <= b < 256 → byte_at (b :: l) 0 = Some b.
Proof.
  intros Hb. rewrite byte_at_lookup by lia.
  change ((b :: l) !! Z.to_nat 0) with (Some b).
  cbn [fmap option_fmap option_map]. unfold uchar. by rewrite Z.mod_small by lia.
Qed.

Lemma unit_bytes_first w x :
  unit_wf x = true →
  ∃ u, transcode_unit w (unit_bytes x) 0 = Some u ∧
       next_indexT u = extent (unit_bytes x) ∧ written u = unit_utf8 w x.
Proof.
  destruct x as [b|b1 b2 b3]; cbn [unit_wf unit_bytes unit_utf8];
    rewrite ?andb_true_iff, ?Z.leb_le, ?Z.ltb_lt; intros Hwf.
  - exists (UnitOut (0 + 1) b [b]). split; [|done].
    apply ascii_unit; [apply byte_at_head|]; lia.
  - eexists. split.
    + apply (sentinel_unit w [0x9B; b1; b2; b3] 0 (uchar b1) (uchar b2) (uchar b3));
        reflexivity.
    + unfold uchar. rewrite !Z.mod_small by lia. done.
Qed.

(** The scan of a well-formed text, whatever follows it, arrives exactly at
    its end with the bytes of each unit stored in turn. *)
Lemma reaches_units w us :
  Forall (λ x, unit_wf x = true) us →
  ∀ rest, ∃ s,
    reaches w (extent (flat_map unit_bytes us))
              (flat_map unit_bytes us ++ rest) init s ∧
    indexT s = extent (flat_map unit_bytes us) ∧
    buffer s = flat_map (unit_utf8 w) us.
Proof.
  induction us as [|x us IH] using rev_ind; intros Hwf rest.
  - exists init. split; [constructor|done].
  - apply Forall_app in Hwf as [Hus Hx]. apply Forall_inv in Hx.
    rewrite !flat_map_app. cbn [flat_map]. rewrite !app_nil_r, <- app_assoc.
    destruct (IH Hus (unit_bytes x ++ rest)) as (s & Hr & Hi & Hbuf).
    destruct (unit_bytes_first w x Hx) as (u & Hu & Hnext & Hwr).
    pose proof (transcode_unit_bound _ _ _ _ Hu) as (Hpos & _).
    assert (Hbody : ∃ s', body w (flat_map unit_bytes us ++ unit_bytes x ++ rest) s
                          = Some s' ∧
              indexT s' = extent (flat_map unit_bytes us) + extent (unit_bytes x) ∧
              buffer s' = buffer s ++ unit_utf8 w x).
    { pose proof (transcode_unit_app_r w (flat_map unit_bytes us)
                    (unit_bytes x ++ rest) 0 ltac:(lia)) as Hsh.
      rewrite Z.add_0_r, (transcode_unit_app_l _ _ rest _ _ Hu) in Hsh.
      unfold body. rewrite Hi, Hsh.
      cbn [fmap option_fmap option_map mbind option_bind].
      eexists. split; [done|].
      cbn [indexT buffer shift_unit next_indexT written].
      by rewrite Hnext, Hwr. }
    destruct Hbody as (s' & Hbody & Hi' & Hbuf').
    exists s'. rewrite extent_app. split; [|split; [done|by rewrite Hbuf', Hbuf]].
    apply (reaches_snoc _ _ _ _ s).
    + rewrite <- (app_nil_r (flat_map unit_bytes us ++ unit_bytes x ++ rest)).
      apply (reaches_app_l _ (extent (flat_map unit_bytes us))); [done|lia].
    + lia.
    + done.
Qed.

Lemma scan_of_reaches w datum after s :
  reaches w (VARSIZE datum) (datum ++ after) init s →
  VARSIZE datum <= indexT s → scan w datum after = Done s.
Proof.
  intros Hr Hend. unfold scan.
  destruct (reaches_while _ _ _ _ _ Hr (Z.to_nat (VARSIZE datum)))
    as (f' & _ & ->); [cbn [indexT init]; lia|].
  destruct f'; cbn [while];
    by destruct (Z.ltb_spec (indexT s) (VARSIZE datum)); [lia|].
Qed.

(** The two size slips cancel on a well-formed text followed by four bytes
    below 0x80. *)
Lemma utft_to_utf8_units w us a1 a2 a3 a4 rest :
  Forall (λ x, unit_wf x = true) us →
  Forall (λ a, 0 <= a < 0x80) [a1; a2; a3; a4] →
  utft_to_utf8 w (flat_map unit_bytes us) ([a1; a2; a3; a4] ++ rest) =
  Done (flat_map (unit_utf8 w) us).
Proof.
  intros Hus Ha.
  assert (Hall : Forall (λ x, unit_wf x = true)
            (us ++ [Single a1; Single a2; Single a3; Single a4])).
  { apply Forall_app. split; [done|].
    repeat (apply Forall_cons_1 in Ha as [? Ha]).
    repeat constructor; cbn; rewrite andb_true_iff, Z.leb_le, Z.ltb_lt; lia. }
  destruct (reaches_units w _ Hall rest) as (s & Hr & Hi & Hbuf).
  rewrite !flat_map_app in *. cbn [flat_map unit_bytes unit_utf8 app] in *.
  rewrite extent_app in *. rewrite <- app_assoc in Hr.
  unfold utft_to_utf8.
  rewrite (scan_of_reaches w _ _ s); unfold VARSIZE, VARHDRSZ;
    [|by rewrite Z.add_comm|rewrite Hi; unfold extent; cbn; lia].
  rewrite Hbuf. unfold to_text, VARHDRSZ. rewrite length_app.
  change (length [a1; a2; a3; a4]) with 4%nat.
  destruct (Z.ltb_spec (Z.of_nat (length (flat_map (unit_utf8 w) us) + 4)) 4);
    [lia|].
  f_equal. apply take_app_length'. lia.
Qed.

(** X9. A well-formed UTF-T text, that is any sequence of single bytes below
    0x80 and of units 0x9B followed by three data bytes, which is followed in
    memory by four bytes below 0x80, is decoded unit by unit: the call
    returns the concatenation of what each unit stores, the byte itself for a
    single byte and the UTF-8 cascade of lines 98-119 applied to the unit's
    code point for the others. *)
Theorem well_formed_text w us a1 a2 a3 a4 rest :
  Forall (λ x, unit_wf x = true) us →
  Forall (λ a, 0 <= a < 0x80) [a1; a2; a3; a4] →
  utft_to_utf8 w (flat_map unit_bytes us) ([a1; a2; a3; a4] ++ rest) =
  Done (flat_map (unit_utf8 w) us).
Proof. apply utft_to_utf8_units. Qed.

Lemma well_formed_text_witness :
  utft_to_utf8 64
    (flat_map unit_bytes [Single 0x41; Escape 0xBC 0xC1 0xAC; Single 0x42])
    ([0x20; 0x00; 0x7F; 0x41] ++ [0xFF]) =
  Done (flat_map (unit_utf8 64) [Single 0x41; Escape 0xBC 0xC1 0xAC; Single 0x42]).
Proof. apply well_formed_text; repeat constructor; lia. Defined.

(** X1. An input made of bytes below 0x80 only, followed in memory by four
    bytes below 0x80, is returned unchanged. *)
Theorem ascii_text_unchanged w datum a1 a2 a3 a4 rest :
  Forall (λ b, 0 <= b < 0x80) datum →
  Forall (λ a, 0 <= a < 0x80) [a1; a2; a3; a4] →
  utft_to_utf8 w datum ([a1; a2; a3; a4] ++ rest) = Done datum.
Proof.
  intros Hd Ha.
  assert (Hb : flat_map unit_bytes (map Single datum) = datum)
    by (clear; induction datum; cbn; congruence).
  assert (Hu : flat_map (unit_utf8 w) (map Single datum) = datum)
    by (clear; induction datum; cbn; congruence).
  rewrite <- Hb at 1. rewrite <- Hu at 2.
  apply utft_to_utf8_units; [|done].
  clear -Hd. induction Hd as [|b l Hb _ IH]; constructor; [|done].
  cbn. rewrite andb_true_iff, Z.leb_le, Z.ltb_lt. lia.
Qed.

Lemma ascii_text_unchanged_witness :
  utft_to_utf8 64 [0x62; 0x61; 0x61; 0x6E; 0x00; 0x7F] ([0; 0; 0; 0] ++ []) =
  Done [0x62; 0x61; 0x61; 0x6E; 0x00; 0x7F].
Proof. apply ascii_text_unchanged; repeat constructor; lia. Defined.

(** ** The short forms of the comment at lines 86-89 *)

(** X10. When the byte after 0x9B is 0xBC the code point is made of the low
    7 bits of the last two bytes, and when the one after is 0x81 as well it is
    0x80 plus the low 7 bits of the last byte; the unit 9B BC 81 b of a
    high-bit byte [b] then stores the same two bytes as [b] alone does in the
    high-bit branch. *)
Theorem escape_short_forms w b2 b3 :
  32 <= w →
  code_point w 0xBC b2 b3 = Z.lor (Z.shiftl (Z.land b2 0x7F) 7) (Z.land b3 0x7F) ∧
  code_point w 0xBC b2 b3 < 0x4000 ∧
  code_point w 0xBC 0x81 b3 = Z.lor 0x80 (Z.land b3 0x7F) ∧
  (0x80 <= b3 < 256 → utf8_encode (code_point w 0xBC 0x81 b3) = utf8_2 b3).
Proof.
  intros Hw.
  pose proof (Z.mod_pos_bound b2 128 eq_refl) as H2.
  pose proof (Z.mod_pos_bound b3 128 eq_refl) as H3.
  assert (Hcp : ∀ x, code_point w 0xBC x b3 = (x mod 128) * 128 + b3 mod 128).
  { intros x. pose proof (Z.mod_pos_bound x 128 eq_refl).
    rewrite code_point_exact
      by (rewrite ?payload_arith; change (188 mod 128) with 60; lia).
    rewrite payload_arith. change (188 mod 128) with 60. lia. }
  rewrite !Hcp. rewrite Z.lor_comm, !land_127.
  rewrite lor_shiftl_add by lia.
  rewrite (Z.lor_comm 128).
  change (Z.lor (b3 mod 128) 128) with (Z.lor (b3 mod 128) (Z.shiftl 1 7)).
  rewrite lor_shiftl_add by lia. change (2 ^ 7) with 128.
  change (129 mod 128) with 1.
  repeat split; try lia.
  intros Hb.
  replace (1 * 128 + b3 mod 128) with b3 by (Z.div_mod_to_equations; lia).
  unfold utf8_encode.
  destruct (Z.ltb_spec b3 0x7F); [lia|]. by destruct (Z.ltb_spec b3 0x07FF); [|lia].
Qed.

Lemma escape_short_forms_witness :
  code_point 64 0xBC 0xC1 0xAC =
    Z.lor (Z.shiftl (Z.land 0xC1 0x7F) 7) (Z.land 0xAC 0x7F) ∧
  code_point 64 0xBC 0xC1 0xAC < 0x4000 ∧
  code_point 64 0xBC 0x81 0xAC = Z.lor 0x80 (Z.land 0xAC 0x7F) ∧
  (0x80 <= 0xAC < 256 → utf8_encode (code_point 64 0xBC 0x81 0xAC) = utf8_2 0xAC).
Proof. apply (escape_short_forms 64 0xC1 0xAC). lia. Defined.

(** ** The thresholds of the cascade *)

(** X11. The cascade of lines 98-119 stores as many bytes as the header
    comment gives to the code point, except at 0x7F, 0x7FF and 0xFFFF, where
    it stores one byte more. *)
Theorem cascade_thresholds c :
  length (utf8_encode c) =
    if (c =? 0x7F) || (c =? 0x7FF) || (c =? 0xFFFF)
    then S (utf8_length c) else utf8_length c.
Proof.
  unfold utf8_encode, utf8_length.
  destruct (Z.eqb_spec c 0x7F) as [->|]; [done|].
  destruct (Z.eqb_spec c 0x7FF) as [->|]; [done|].
  destruct (Z.eqb_spec c 0xFFFF) as [->|]; [done|]. cbn [orb].
  destruct (Z.ltb_spec c 0x7F), (Z.leb_spec c 0x7F); try lia; [done|].
  destruct (Z.ltb_spec c 0x07FF), (Z.leb_spec c 0x7FF); try lia; [done|].
  by destruct (Z.ltb_spec c 0xFFFF), (Z.leb_spec c 0xFFFF); try lia.
Qed.

End PgUtft.
